(** * pyoculus: the SPEC magnetic-field problem ([SPECBfield])

    A shallow embedding of [pyoculus/problems/spec_bfield.py]: the class
    [SPECBfield], its constructor, the two ODE right-hand sides [f] and
    [f_tangent], and the coordinate conversion [convert_coords].

    Numbers are binary64 floats (numpy's [float64]), modelled by Rocq's
    primitive floats.  Calls into the compiled Fortran module and into the
    base class are computations over an abstract state of that module which
    either return a value or raise a Python exception. *)

From Stdlib Require Import ZArith List String Bool Lia Floats.
Import ListNotations.

Local Open Scope Z_scope.

(** ** binary64 arithmetic used by the class *)

Module Float64.

(** [np.pi], the binary64 number nearest to pi. *)
Definition np_pi : float := 0x1.921fb54442d18p+1%float.

(** [2 * np.pi] as the source writes it: a float product. *)
Definition two_pi : float := (2 * np_pi)%float.

(** The sign bit of [x] as C's [isless(x, 0)] reads it. *)
Definition isless0 (x : float) : bool := (x <? 0)%float.

(** C's [fmod] on the specification side.  The remainder of the truncated
    division of [x] by [y] is computed exactly on integers, after both
    mantissas are brought to the smaller exponent; it has the sign of [x]
    and always fits the format, so the final normalisation rounds nothing. *)
Definition SFfmod (x y : spec_float) : spec_float :=
  match x, y with
  | S754_nan, _ | _, S754_nan => S754_nan
  | S754_infinity _, _ => S754_nan
  | _, S754_zero _ => S754_nan
  | _, S754_infinity _ => x
  | S754_zero _, _ => x
  | S754_finite sx mx ex, S754_finite _ my ey =>
      let ez := Z.min ex ey in
      let r := Z.rem (Zpos (fst (shl_align mx ex ez)))
                     (Zpos (fst (shl_align my ey ez))) in
      binary_normalize prec emax (cond_Zopp sx r) ez sx
  end.

Definition fmod (x y : float) : float :=
  SF2Prim (SFfmod (Prim2SF x) (Prim2SF y)).

(** [copysign(0, b)]. *)
Definition copysign0 (b : float) : float :=
  if get_sign b then (-0)%float else 0%float.

(** [np.mod] on two float64 scalars (numpy's [npy_remainder], which is
    Python's [%] on floats): [fmod], then a remainder whose sign differs from
    the divisor's is moved by one divisor, and a zero remainder takes the
    divisor's sign. *)
Definition np_mod (a b : float) : float :=
  let m := fmod a b in
  if (b =? 0)%float then m
  else if negb (m =? 0)%float then
    if xorb (isless0 b) (isless0 m) then (m + b)%float else m
  else copysign0 b.

(** The angle canonicalisation of the slab branch. *)
Definition wrap (x : float) : float := np_mod x two_pi.

(** [x] is neither an infinity nor a NaN. *)
Definition finite64 (x : float) : bool :=
  match Prim2SF x with
  | S754_zero _ | S754_finite _ _ _ => true
  | _ => false
  end.

(** The exact value of a finite float, counted in units of [2^emin], the
    spacing of the subnormal numbers: every finite binary64 value is an
    integer number of these. *)
Definition SFunits (x : spec_float) : Z :=
  match x with
  | S754_finite s m e => cond_Zopp s (Zpos m * 2 ^ (e - emin))
  | _ => 0
  end.

Definition units (x : float) : Z := SFunits (Prim2SF x).

(** The mantissa of [2 * np.pi]; its exponent is [-50]. *)
Definition two_pi_mantissa : positive := 7074237752028440.

(** The exponent function and the validity test of the format. *)
Abbreviation fexp64 := (fexp prec emax).
Abbreviation bounded64 := (bounded prec emax).

End Float64.

(** ** Python computations: a result or an exception, over the state of the
    compiled Fortran module *)

Inductive exn : Type :=
| ValueError (msg : string)
| IndexError
| ForeignError (kind msg : string).

Inductive result (A : Type) : Type :=
| Ok (a : A)
| Raise (e : exn).

Arguments Ok {A} a.
Arguments Raise {A} e.

Definition Py (World A : Type) : Type := World -> result A * World.

Definition ret {World A : Type} (a : A) : Py World A := fun w => (Ok a, w).

Definition raise {World A : Type} (e : exn) : Py World A :=
  fun w => (Raise e, w).

Definition bind {World A B : Type} (c : Py World A) (k : A -> Py World B)
  : Py World B :=
  fun w => match c w with
           | (Ok a, w') => k a w'
           | (Raise e, w') => (Raise e, w')
           end.

Declare Scope py_scope.
Delimit Scope py_scope with py.
Notation "x <- c ;; k" := (bind c (fun x => k))
  (at level 100, c at next level, right associativity) : py_scope.
Local Open Scope py_scope.

(** A one-dimensional [float64] array. *)
Definition ndarray : Type := list float.

(** What the methods hand back or take as the unused ODE parameter. *)
Inductive pyobj : Type :=
| PyNone
| PyFloat (x : float)
| PyArray (a : ndarray).

(** [a[i]] for a literal index: out of range raises. *)
Definition getitem {World : Type} (a : ndarray) (i : nat) : Py World float :=
  match nth_error a i with
  | Some v => ret v
  | None => raise IndexError
  end.

(** ** The objects *)

Section Objects.

Context {World : Type}.

(** [fortran_module.specbfield] and [fortran_module.speccoords]: the field
    oracle, compiled Fortran behind f2py. *)
Record Specbfield : Type := {
  get_bfield : float -> ndarray -> Py World ndarray;
  get_bfield_tangent : float -> ndarray -> Py World ndarray
}.

Record Speccoords : Type := {
  get_xyz : ndarray -> Py World ndarray
}.

Record FortranModule : Type := {
  specbfield : Specbfield;
  speccoords : Speccoords
}.

(** The attributes the base class [SPECProblem] leaves on [self] and this
    class reads. *)
Record SPECProblem : Type := {
  fortran_module : FortranModule;
  Igeometry : Z;
  rpol : float;
  rtor : float
}.

Record SPECBfield : Type := {
  base : SPECProblem;
  problem_size : Z;
  poincare_plot_type : string;
  poincare_plot_xlabel : string;
  poincare_plot_ylabel : string
}.

(** [SPECBfield.__init__].  [super_init] is [SPECProblem.__init__], which
    lives in another file of the package. *)
Definition SPECBfield_init {SpecData : Type}
    (super_init : SpecData -> Z -> Py World SPECProblem)
    (spec_data : SpecData) (lvol : Z) : Py World SPECBfield :=
  self <- super_init spec_data lvol ;;
  let size := 2 in
  if Igeometry self =? 1 then
    ret {| base := self; problem_size := size;
           poincare_plot_type := "yx";
           poincare_plot_xlabel := "$\theta$";
           poincare_plot_ylabel := "R" |}
  else if Igeometry self =? 2 then
    ret {| base := self; problem_size := size;
           poincare_plot_type := "RZ";
           poincare_plot_xlabel := "X(m)";
           poincare_plot_ylabel := "Y(m)" |}
  else if Igeometry self =? 3 then
    ret {| base := self; problem_size := size;
           poincare_plot_type := "RZ";
           poincare_plot_xlabel := "R(m)";
           poincare_plot_ylabel := "Z(m)" |}
  else raise (ValueError "Unknown Igeometry!").

(** [SPECBfield.f]; [arg1] defaults to [None]. *)
Definition f (self : SPECBfield) (zeta : float) (st : ndarray)
    (arg1 : pyobj) : Py World ndarray :=
  get_bfield (specbfield (fortran_module (base self))) zeta st.

(** [SPECBfield.f_tangent]; [arg1] defaults to [None]. *)
Definition f_tangent (self : SPECBfield) (zeta : float) (st : ndarray)
    (arg1 : pyobj) : Py World ndarray :=
  get_bfield_tangent (specbfield (fortran_module (base self))) zeta st.

(** [np.cos] and [np.sin] are the platform's libm on float64. *)
Variables np_cos np_sin : float -> float.

(** [SPECBfield.convert_coords].  The elements of each array literal are
    evaluated left to right; a function body that runs off its end returns
    [None]. *)
Definition convert_coords (self : SPECBfield) (stz : ndarray)
  : Py World pyobj :=
  xyz <- get_xyz (speccoords (fortran_module (base self))) stz ;;
  if Igeometry (base self) =? 1 then
    x0 <- getitem xyz 0 ;;
    th <- getitem stz 1 ;;
    ze <- getitem stz 2 ;;
    ret (PyArray
           [ x0;
             (Float64.np_mod th (2 * Float64.np_pi) * rpol (base self))%float;
             (Float64.np_mod ze (2 * Float64.np_pi) * rtor (base self))%float ])
  else if Igeometry (base self) =? 2 then
    x0 <- getitem xyz 0 ;;
    th <- getitem stz 1 ;;
    ze <- getitem stz 2 ;;
    x0' <- getitem xyz 0 ;;
    th' <- getitem stz 1 ;;
    ret (PyArray [ (x0 * np_cos th)%float;
                   (ze * rtor (base self))%float;
                   (x0' * np_sin th')%float ])
  else if Igeometry (base self) =? 3 then
    ret (PyArray xyz)
  else ret PyNone.

(** The oracle queries as the methods reach them through [self]. *)
Definition field_oracle (self : SPECBfield) : Specbfield :=
  specbfield (fortran_module (base self)).

Definition coordinate_oracle (self : SPECBfield)
  : ndarray -> Py World ndarray :=
  get_xyz (speccoords (fortran_module (base self))).

End Objects.

Arguments Specbfield : clear implicits.
Arguments Speccoords : clear implicits.
Arguments FortranModule : clear implicits.
Arguments SPECProblem : clear implicits.
Arguments SPECBfield : clear implicits.

(** ** Stub collaborators, for running the model on concrete inputs

    The state of a stub module is the number of calls it has served. *)

Module Stub.

(** A field oracle that answers every field query with the state it was
    given and every coordinate query with [xyz]. *)
Definition echo_module (xyz : ndarray) : FortranModule nat := {|
  specbfield := {|
    get_bfield := fun _ st n => (Ok st, S n);
    get_bfield_tangent := fun _ st n => (Ok st, S n) |};
  speccoords := {| get_xyz := fun _ n => (Ok xyz, S n) |}
|}.

(** A field oracle that answers every field query with a fixed tuple. *)
Definition const_specbfield {World : Type} (t2 t6 : ndarray)
  : Specbfield World := {|
  get_bfield := fun _ _ w => (Ok t2, w);
  get_bfield_tangent := fun _ _ w => (Ok t6, w)
|}.

(** A field oracle every query of which fails. *)
Definition outside_volume : exn :=
  ForeignError "RuntimeError" "coordinate outside the volume".

Definition failing_module : FortranModule nat := {|
  specbfield := {|
    get_bfield := fun _ _ n => (Raise outside_volume, S n);
    get_bfield_tangent := fun _ _ n => (Raise outside_volume, S n) |};
  speccoords := {| get_xyz := fun _ n => (Raise outside_volume, S n) |}
|}.

(** A base-class constructor that reads the geometry flag off its data. *)
Definition super_init (fm : FortranModule nat) (geometry : Z) (lvol : Z)
  : Py nat (SPECProblem nat) :=
  ret {| fortran_module := fm; Igeometry := geometry;
         rpol := 2%float; rtor := 3%float |}.

(** For the flags 1, 2 and 3, the object the constructor returns over
    [super_init]; for any other flag, a toroidal object whose [Igeometry]
    attribute was assigned afterwards. *)
Definition problem (fm : FortranModule nat) (geometry : Z)
  : SPECBfield nat := {|
  base := {| fortran_module := fm; Igeometry := geometry;
             rpol := 2%float; rtor := 3%float |};
  problem_size := 2;
  poincare_plot_type := if geometry =? 1 then "yx" else "RZ";
  poincare_plot_xlabel :=
    if geometry =? 1 then "$\theta$"
    else if geometry =? 2 then "X(m)" else "R(m)";
  poincare_plot_ylabel :=
    if geometry =? 1 then "R"
    else if geometry =? 2 then "Y(m)" else "Z(m)"
|}.

(** A toroidal problem over the oracle answering fixed tuples. *)
Definition const_problem (t2 t6 : ndarray) : SPECBfield nat := {|
  base := {| fortran_module :=
               {| specbfield := const_specbfield t2 t6;
                  speccoords := speccoords failing_module |};
             Igeometry := 3; rpol := 2%float; rtor := 3%float |};
  problem_size := 2;
  poincare_plot_type := "RZ";
  poincare_plot_xlabel := "R(m)";
  poincare_plot_ylabel := "Z(m)"
|}.

(** What libm's cosine and sine return at angle zero. *)
Definition cos_at_0 (_ : float) : float := 1%float.
Definition sin_at_0 (_ : float) : float := 0%float.

End Stub.

(** * Properties *)

(** ** binary64: digits, shifts and rounding

    The format's rounding and validity, as the standard library specifies
    them for primitive floats, at precision 53 and maximal exponent 1024. *)

Import Float64.

Section Digits.

(** [digits2_pos m] is the number of binary digits of [m]. *)
Lemma digits2_bounds (m : positive) :
  2 ^ (Zpos (digits2_pos m) - 1) <= Zpos m < 2 ^ Zpos (digits2_pos m).
Proof.
  induction m as [p IH|p IH|]; cbn [digits2_pos].
  - rewrite Pos2Z.inj_succ, (Pos2Z.inj_xI p).
    replace (Z.succ (Zpos (digits2_pos p)) - 1)
      with (Z.succ (Zpos (digits2_pos p) - 1)) by lia.
    rewrite !Z.pow_succ_r by lia.
    set (A := 2 ^ (Zpos (digits2_pos p) - 1)) in *.
    set (B := 2 ^ Zpos (digits2_pos p)) in *. clearbody A B. lia.
  - rewrite Pos2Z.inj_succ, (Pos2Z.inj_xO p).
    replace (Z.succ (Zpos (digits2_pos p)) - 1)
      with (Z.succ (Zpos (digits2_pos p) - 1)) by lia.
    rewrite !Z.pow_succ_r by lia.
    set (A := 2 ^ (Zpos (digits2_pos p) - 1)) in *.
    set (B := 2 ^ Zpos (digits2_pos p)) in *. clearbody A B. lia.
  - cbn. lia.
Qed.

Lemma digits2_unique (m : positive) (d : Z) :
  2 ^ (d - 1) <= Zpos m < 2 ^ d -> Zpos (digits2_pos m) = d.
Proof.
  intros [Hlo Hhi]. pose proof (digits2_bounds m) as [Blo Bhi].
  assert (0 < d) as Hd.
  { destruct (Z.ltb_spec 0 d); [assumption|].
    destruct (Z.eq_dec d 0) as [->|]; [cbn in Hhi; lia|].
    rewrite Z.pow_neg_r in Hhi by lia. lia. }
  destruct (Z.lt_trichotomy (Zpos (digits2_pos m)) d) as [L|[E|G]]; [|exact E|].
  - assert (2 ^ Zpos (digits2_pos m) <= 2 ^ (d - 1))
      by (apply Z.pow_le_mono_r; lia).
    lia.
  - assert (2 ^ d <= 2 ^ (Zpos (digits2_pos m) - 1))
      by (apply Z.pow_le_mono_r; lia).
    lia.
Qed.

Lemma digits2_mul_pow2 (m m' : positive) (k : Z) :
  0 <= k -> Zpos m' = Zpos m * 2 ^ k ->
  Zpos (digits2_pos m') = Zpos (digits2_pos m) + k.
Proof.
  intros Hk E. apply digits2_unique. rewrite E.
  pose proof (digits2_bounds m) as [Blo Bhi].
  replace (Zpos (digits2_pos m) + k - 1)
    with ((Zpos (digits2_pos m) - 1) + k) by lia.
  rewrite !Z.pow_add_r by lia.
  assert (0 < 2 ^ k) by (apply Z.pow_pos_nonneg; lia). nia.
Qed.

Lemma digits2_le (m m' : positive) :
  Zpos m <= Zpos m' -> Zpos (digits2_pos m) <= Zpos (digits2_pos m').
Proof.
  intros H. pose proof (digits2_bounds m) as [Blo _].
  pose proof (digits2_bounds m') as [_ Bhi].
  destruct (Z.le_gt_cases (Zpos (digits2_pos m)) (Zpos (digits2_pos m')))
    as [|G]; [assumption|].
  assert (2 ^ Zpos (digits2_pos m') <= 2 ^ (Zpos (digits2_pos m) - 1))
    by (apply Z.pow_le_mono_r; lia).
  lia.
Qed.

End Digits.

Section Shifts.

Lemma iter_xO_pow (m d : positive) :
  Zpos (Pos.iter xO m d) = Zpos m * 2 ^ Zpos d.
Proof.
  induction d as [|d IH] using Pos.peano_ind.
  - cbn [Pos.iter]. rewrite (Pos2Z.inj_xO m). lia.
  - rewrite Pos.iter_succ, Pos2Z.inj_succ, Z.pow_succ_r by lia.
    rewrite (Pos2Z.inj_xO (Pos.iter xO m d)), IH. lia.
Qed.

(** Bringing a mantissa to a smaller exponent multiplies it by a power of
    two; a larger exponent is not taken up. *)
Lemma shl_align_down (mx : positive) (ex ez : Z) :
  ez <= ex ->
  snd (shl_align mx ex ez) = ez
  /\ Zpos (fst (shl_align mx ex ez)) = Zpos mx * 2 ^ (ex - ez).
Proof.
  intros H. unfold shl_align. destruct (ez - ex) as [|d|d] eqn:E.
  - assert (ex = ez) as -> by lia. rewrite Z.sub_diag. cbn. lia.
  - lia.
  - cbn [fst snd]. rewrite iter_xO_pow.
    replace (ex - ez) with (Zpos d) by lia. auto.
Qed.

Lemma shl_align_up (mx : positive) (ex ez : Z) :
  ex <= ez -> shl_align mx ex ez = (mx, ex).
Proof.
  intros H. unfold shl_align. destruct (ez - ex) as [|d|d] eqn:E; auto. lia.
Qed.

(** One right shift: the mantissa is halved, its low bit becomes the round
    bit, the old round bit joins the sticky bit. *)
Lemma shr_1_nonneg (mrs : shr_record) :
  0 <= shr_m mrs ->
  shr_1 mrs = {| shr_m := Z.div2 (shr_m mrs); shr_r := Z.odd (shr_m mrs);
                 shr_s := shr_r mrs || shr_s mrs |}.
Proof.
  destruct mrs as [m r s]. cbn [shr_m shr_r shr_s].
  destruct m as [|[p|p|]|p]; intros H; try reflexivity; lia.
Qed.

Lemma iter_pos_iter {A : Type} (g : A -> A) (p : positive) (x : A) :
  iter_pos g p x = Pos.iter g x p.
Proof.
  revert x. induction p as [p IH|p IH|]; intros x; cbn [iter_pos Pos.iter].
  - now rewrite !IH, !Pos.iter_swap.
  - now rewrite !IH.
  - reflexivity.
Qed.

Lemma odd_negb_mod2 (a : Z) : Z.odd a = negb (a mod 2 =? 0).
Proof. rewrite Zmod_odd. now destruct (Z.odd a). Qed.

(** [p] right shifts of an exact non-negative mantissa: the quotient by
    [2^p], and round and sticky bits that are both clear exactly when the
    division leaves no remainder. *)
Lemma shr_iter_spec (m0 : Z) (p : positive) :
  0 <= m0 ->
  let r := iter_pos shr_1 p (Build_shr_record m0 false false) in
  shr_m r = m0 / 2 ^ Zpos p
  /\ shr_r r || shr_s r = negb (m0 mod 2 ^ Zpos p =? 0).
Proof.
  intros Hm. cbv zeta. rewrite iter_pos_iter.
  induction p as [|p [IHm IHrs]] using Pos.peano_ind.
  - cbn [Pos.iter]. rewrite shr_1_nonneg by exact Hm.
    cbn [shr_m shr_r shr_s]. rewrite Z.div2_div, orb_false_r.
    change (2 ^ 1) with 2. split; [reflexivity|apply odd_negb_mod2].
  - rewrite Pos.iter_succ.
    set (r := Pos.iter shr_1 _ p) in *.
    assert (0 < 2 ^ Zpos p) as Hpow by (apply Z.pow_pos_nonneg; lia).
    assert (0 <= shr_m r) as Hr by (rewrite IHm; apply Z.div_pos; lia).
    rewrite shr_1_nonneg by exact Hr. cbn [shr_m shr_r shr_s].
    rewrite Pos2Z.inj_succ, Z.pow_succ_r by lia.
    rewrite (Z.mul_comm 2). split.
    + rewrite Z.div2_div, IHm, Z.div_div by lia. reflexivity.
    + rewrite IHrs, odd_negb_mod2, IHm, Z.rem_mul_r by lia.
      pose proof (Z.mod_pos_bound m0 (2 ^ Zpos p) Hpow).
      pose proof (Z.mod_pos_bound (m0 / 2 ^ Zpos p) 2 ltac:(lia)).
      destruct (Z.eqb_spec ((m0 / 2 ^ Zpos p) mod 2) 0) as [E1|E1];
        destruct (Z.eqb_spec (m0 mod 2 ^ Zpos p) 0) as [E2|E2];
        cbn [negb orb]; symmetry;
        [ apply negb_false_iff, Z.eqb_eq | apply negb_true_iff, Z.eqb_neq
        | apply negb_true_iff, Z.eqb_neq | apply negb_true_iff, Z.eqb_neq ]; nia.
Qed.

End Shifts.

Section Rounding.

Lemma fexp64_eq (e : Z) : fexp64 e = Z.max (e - 53) (-1074).
Proof. reflexivity. Qed.

(** Validity of a finite number: the exponent is the one the format assigns
    to the mantissa's length, and it is not above [emax - prec]. *)
Lemma bounded64_iff (m : positive) (e : Z) :
  bounded64 m e = true <->
  fexp64 (Zpos (digits2_pos m) + e) = e /\ e <= 971.
Proof.
  unfold bounded, canonical_mantissa.
  rewrite andb_true_iff, Z.eqb_eq, Z.leb_le. reflexivity.
Qed.

(** [shr_fexp] leaves a mantissa at or above its target exponent alone, and
    otherwise divides it by the power of two that takes it there. *)
Lemma shr_fexp_noshift (m e : Z) :
  fexp64 (Zdigits2 m + e) <= e ->
  shr_fexp prec emax m e loc_Exact
  = ({| shr_m := m; shr_r := false; shr_s := false |}, e).
Proof.
  intros H. unfold shr_fexp, shr.
  destruct (fexp64 (Zdigits2 m + e) - e) eqn:E; try reflexivity. lia.
Qed.

Lemma shr_fexp_shift (m e : Z) (p : positive) :
  0 <= m ->
  fexp64 (Zdigits2 m + e) - e = Zpos p ->
  exists r s,
    shr_fexp prec emax m e loc_Exact
    = ({| shr_m := m / 2 ^ Zpos p; shr_r := r; shr_s := s |}, e + Zpos p)
    /\ r || s = negb (m mod 2 ^ Zpos p =? 0).
Proof.
  intros Hm E. unfold shr_fexp, shr. rewrite E. cbn [shr_record_of_loc].
  destruct (shr_iter_spec m p Hm) as [Hq Hrs].
  destruct (iter_pos shr_1 p _) as [q r s]. cbn [shr_m shr_r shr_s] in *.
  exists r, s. now rewrite Hq.
Qed.

(** Rounding to nearest keeps the quotient or adds one, and keeps it when
    nothing was shifted out. *)
Lemma round_nearest_even_bounds (q : Z) (r s : bool) :
  let m := round_nearest_even q
             (loc_of_shr_record {| shr_m := q; shr_r := r; shr_s := s |}) in
  q <= m <= q + 1 /\ (r || s = false -> m = q).
Proof.
  destruct r, s; cbn; try destruct (Z.even q); split; (lia || easy).
Qed.

(** A mantissa already in canonical form goes through the rounding
    unchanged. *)
Lemma binary_round_aux_canonical (s : bool) (m : positive) (e : Z) :
  bounded64 m e = true ->
  binary_round_aux prec emax s (Zpos m) e loc_Exact = S754_finite s m e.
Proof.
  intros [Hc He]%bounded64_iff. unfold binary_round_aux.
  rewrite shr_fexp_noshift by (cbn [Zdigits2]; lia).
  cbn [shr_m loc_of_shr_record round_nearest_even].
  rewrite shr_fexp_noshift by (cbn [Zdigits2]; lia).
  cbn [shr_m]. replace (e <=? emax - prec) with true; [reflexivity|].
  symmetry. apply Z.leb_le. exact He.
Qed.

(** Cancelling the common scale of two values given in units. *)
Lemma units_cancel (a b e e' : Z) :
  -1074 <= e <= e' ->
  a * 2 ^ (e - -1074) = b * 2 ^ (e' - -1074) -> a = b * 2 ^ (e' - e).
Proof.
  intros H. replace (e' - -1074) with ((e' - e) + (e - -1074)) by lia.
  rewrite Z.pow_add_r by lia.
  assert (0 < 2 ^ (e - -1074)) by (apply Z.pow_pos_nonneg; lia).
  intros; nia.
Qed.

Lemma units_le_cancel (a b e e' : Z) :
  -1074 <= e <= e' ->
  a * 2 ^ (e - -1074) <= b * 2 ^ (e' - -1074) -> a <= b * 2 ^ (e' - e).
Proof.
  intros H. replace (e' - -1074) with ((e' - e) + (e - -1074)) by lia.
  rewrite Z.pow_add_r by lia.
  assert (0 < 2 ^ (e - -1074)) by (apply Z.pow_pos_nonneg; lia).
  intros; nia.
Qed.

(** Larger values have no fewer digits above the unit. *)
Lemma digits2_units_le (a b : positive) (e e' : Z) :
  -1074 <= e -> -1074 <= e' ->
  Zpos a * 2 ^ (e - -1074) <= Zpos b * 2 ^ (e' - -1074) ->
  Zpos (digits2_pos a) + e <= Zpos (digits2_pos b) + e'.
Proof.
  intros He He' H.
  pose proof (digits2_bounds a) as [Alo _].
  pose proof (digits2_bounds b) as [_ Bhi].
  assert (0 < 2 ^ (e - -1074)) by (apply Z.pow_pos_nonneg; lia).
  assert (0 < 2 ^ (e' - -1074)) by (apply Z.pow_pos_nonneg; lia).
  assert (2 ^ (Zpos (digits2_pos a) - 1 + (e - -1074))
          < 2 ^ (Zpos (digits2_pos b) + (e' - -1074))) as Hlt.
  { rewrite !Z.pow_add_r by lia. nia. }
  apply Z.pow_lt_mono_r_iff in Hlt; lia.
Qed.

Lemma digits2_units_eq (a b : positive) (e e' : Z) :
  -1074 <= e -> -1074 <= e' ->
  Zpos a * 2 ^ (e - -1074) = Zpos b * 2 ^ (e' - -1074) ->
  Zpos (digits2_pos a) + e = Zpos (digits2_pos b) + e'.
Proof.
  intros He He' H.
  pose proof (digits2_units_le a b e e' He He').
  pose proof (digits2_units_le b a e' e He' He). lia.
Qed.

(** A value that has a canonical form is rounded to that form. *)
Lemma binary_round_exact (s : bool) (D M : positive) (e E : Z) :
  bounded64 M E = true ->
  -1074 <= e ->
  Zpos D * 2 ^ (e - -1074) = Zpos M * 2 ^ (E - -1074) ->
  binary_round prec emax s D e = S754_finite s M E.
Proof.
  intros HB He Hval. pose proof HB as [Hc HE]%bounded64_iff.
  assert (-1074 <= E) as HEmin by (rewrite fexp64_eq in Hc; lia).
  pose proof (digits2_units_eq D M e E He HEmin Hval) as Hdig.
  unfold binary_round. rewrite Hdig, Hc.
  destruct (Z.lt_ge_cases E e) as [Hlt|Hge].
  - destruct (shl_align_down D e E ltac:(lia)) as [Hsnd Hfst].
    destruct (shl_align D e E) as [mz ez]. cbn [fst snd] in *. subst ez.
    symmetry in Hval. apply units_cancel in Hval; [|lia].
    rewrite <- Hval in Hfst. injection Hfst as ->.
    now apply binary_round_aux_canonical.
  - rewrite shl_align_up by exact Hge.
    apply units_cancel in Hval; [|lia].
    destruct (Z.eq_dec e E) as [->|Hne].
    + rewrite Z.sub_diag, Z.mul_1_r in Hval. injection Hval as ->.
      now apply binary_round_aux_canonical.
    + destruct (E - e) as [|p|p] eqn:Ep; try lia.
      destruct (shr_fexp_shift (Zpos D) e p ltac:(lia)) as (r & t & Hshr & Hrt).
      { cbn [Zdigits2]. rewrite Hdig, Hc. exact Ep. }
      assert (0 < 2 ^ Zpos p) by (apply Z.pow_pos_nonneg; lia).
      assert (Zpos D mod 2 ^ Zpos p = 0) as Hrem
          by (rewrite Hval; apply Z.mod_mul; lia).
      assert (Zpos D / 2 ^ Zpos p = Zpos M) as Hquo
          by (rewrite Hval; apply Z.div_mul; lia).
      rewrite Hrem, Z.eqb_refl in Hrt.
      apply orb_false_iff in Hrt as [-> ->]. rewrite Hquo in Hshr.
      replace (e + Zpos p) with E in Hshr by lia.
      unfold binary_round_aux. rewrite Hshr.
      cbn [shr_m loc_of_shr_record round_nearest_even].
      rewrite shr_fexp_noshift by (cbn [Zdigits2]; lia).
      cbn [shr_m]. replace (E <=? emax - prec) with true; [reflexivity|].
      symmetry. apply Z.leb_le. exact HE.
Qed.

Lemma digits2_le_pow (m : positive) (k : Z) :
  0 <= k -> Zpos m <= 2 ^ k -> Zpos (digits2_pos m) <= k + 1.
Proof.
  intros Hk H. pose proof (digits2_bounds m) as [Blo _].
  assert (2 ^ (Zpos (digits2_pos m) - 1) <= 2 ^ k) as Hle by lia.
  apply Z.pow_le_mono_r_iff in Hle; lia.
Qed.

(** Rounding is monotone against a representable bound: a positive value
    not above a canonical one is rounded to zero or to a positive finite
    number not above it. *)
Lemma binary_round_le (D M : positive) (e E : Z) :
  bounded64 M E = true ->
  E < 971 ->
  -1074 <= e ->
  Zpos D * 2 ^ (e - -1074) <= Zpos M * 2 ^ (E - -1074) ->
  binary_round prec emax false D e = S754_zero false
  \/ exists m' e',
      binary_round prec emax false D e = S754_finite false m' e'
      /\ -1074 <= e'
      /\ Zpos m' * 2 ^ (e' - -1074) <= Zpos M * 2 ^ (E - -1074).
Proof.
  intros HB HE1 He Hval. pose proof HB as [Hc _]%bounded64_iff.
  assert (-1074 <= E) as HEmin by (rewrite fexp64_eq in Hc; lia).
  pose proof (digits2_units_le D M e E He HEmin Hval) as Hdig.
  unfold binary_round.
  set (E0 := fexp64 (Zpos (digits2_pos D) + e)).
  assert (E0 = Z.max (Zpos (digits2_pos D) + e - 53) (-1074)) as HE0
      by reflexivity.
  rewrite fexp64_eq in Hc.
  assert (-1074 <= E0 <= E) as [HE0min HE0E] by lia.
  destruct (Z.lt_ge_cases E0 e) as [Hlt|Hge].
  - (* the mantissa is shifted left: nothing is lost *)
    destruct (shl_align_down D e E0 ltac:(lia)) as [Hsnd Hfst].
    destruct (shl_align D e E0) as [mz ez]. cbn [fst snd] in *. subst ez.
    pose proof (digits2_mul_pow2 D mz (e - E0) ltac:(lia) Hfst) as Hdz.
    rewrite binary_round_aux_canonical
      by (apply bounded64_iff; rewrite fexp64_eq; lia).
    right. exists mz, E0. split; [reflexivity|]. split; [exact HE0min|].
    rewrite Hfst, <- Z.mul_assoc, <- Z.pow_add_r by lia.
    now replace (e - E0 + (E0 - -1074)) with (e - -1074) by lia.
  - rewrite shl_align_up by exact Hge.
    destruct (E0 - e) as [|p|p] eqn:Ep; try lia.
    + (* already at the target exponent *)
      assert (e = E0) as He0 by lia.
      rewrite binary_round_aux_canonical
        by (apply bounded64_iff; rewrite fexp64_eq; lia).
      right. exists D, e. auto.
    + (* [p] low bits are rounded away *)
      destruct (shr_fexp_shift (Zpos D) e p ltac:(lia) Ep)
        as (r & t & Hshr & Hrt).
      unfold binary_round_aux. rewrite Hshr. cbn [shr_m].
      replace (e + Zpos p) with E0 by lia.
      assert (0 < 2 ^ Zpos p) as Hpow by (apply Z.pow_pos_nonneg; lia).
      set (q := Zpos D / 2 ^ Zpos p) in *.
      assert (0 <= q) as Hq by (apply Z.div_pos; lia).
      pose proof (Z.div_mod (Zpos D) (2 ^ Zpos p) ltac:(lia)) as Hdm.
      pose proof (Z.mod_pos_bound (Zpos D) (2 ^ Zpos p) Hpow) as Hmod.
      fold q in Hdm.
      destruct (round_nearest_even_bounds q r t) as [Hm1 Hexact].
      set (m1 := round_nearest_even q _) in *.
      (* the rounded mantissa stays under the bound, taken at exponent E0 *)
      apply units_le_cancel in Hval; [|lia].
      replace (E - e) with ((E - E0) + Zpos p) in Hval by lia.
      rewrite Z.pow_add_r, Z.mul_assoc in Hval by lia.
      set (B := Zpos M * 2 ^ (E - E0)) in *.
      assert (m1 <= B) as Hm1B.
      { destruct (Z.eqb_spec (Zpos D mod 2 ^ Zpos p) 0) as [Hz|Hnz].
        - rewrite (Hexact Hrt). nia.
        - nia. }
      assert (B * 2 ^ (E0 - -1074) = Zpos M * 2 ^ (E - -1074)) as HB0.
      { unfold B. rewrite <- Z.mul_assoc, <- Z.pow_add_r by lia.
        now replace (E - E0 + (E0 - -1074)) with (E - -1074) by lia. }
      assert (0 < 2 ^ (E0 - -1074)) as HpowE
          by (apply Z.pow_pos_nonneg; lia).
      clearbody m1. destruct m1 as [|m1|m1]; [| |lia].
      * rewrite shr_fexp_noshift by (cbn [Zdigits2]; rewrite fexp64_eq; lia).
        now left.
      * (* a carry can cost one more shift *)
        assert (Zpos (digits2_pos m1) + E0 - 53 <= E0 + 1) as Hd1.
        { set (k := Z.max (Zpos (digits2_pos D) - Zpos p) 0).
          pose proof (digits2_bounds D) as [_ Dhi].
          assert (q + 1 <= 2 ^ k) as Hqk.
          { destruct (Z.le_gt_cases (Zpos p) (Zpos (digits2_pos D))) as [Hpd|Hpd].
            - replace k with (Zpos (digits2_pos D) - Zpos p) by lia.
              enough (q < 2 ^ (Zpos (digits2_pos D) - Zpos p)) by lia.
              apply Z.div_lt_upper_bound; [lia|].
              rewrite <- Z.pow_add_r by lia.
              now replace (Zpos p + (Zpos (digits2_pos D) - Zpos p))
                with (Zpos (digits2_pos D)) by lia.
            - replace k with 0 by lia.
              assert (2 ^ Zpos (digits2_pos D) <= 2 ^ Zpos p)
                by (apply Z.pow_le_mono_r; lia).
              unfold q. rewrite Z.div_small by lia. cbn. lia. }
          pose proof (digits2_le_pow m1 k ltac:(lia) ltac:(lia)). lia. }
        destruct (fexp64 (Zdigits2 (Zpos m1) + E0) - E0) as [|p2|p2] eqn:Ep2.
        -- rewrite shr_fexp_noshift by lia. cbn [shr_m].
           replace (E0 <=? emax - prec) with true
             by (symmetry; apply Z.leb_le; change (emax - prec) with 971; lia).
           right. exists m1, E0. split; [reflexivity|]. split; [lia|]. nia.
        -- destruct (shr_fexp_shift (Zpos m1) E0 p2 ltac:(lia) Ep2)
             as (r2 & t2 & Hshr2 & _).
           rewrite Hshr2. cbn [shr_m].
           cbn [Zdigits2] in Ep2. rewrite fexp64_eq in Ep2.
           assert (p2 = 1%positive) as -> by lia.
           change (2 ^ 1) with 2.
           pose proof (Z.div_mod (Zpos m1) 2 ltac:(lia)) as Hdm2.
           pose proof (Z.mod_pos_bound (Zpos m1) 2 ltac:(lia)) as Hmod2.
           destruct (Zpos m1 / 2) as [|m2|m2] eqn:Em2; [now left| |lia].
           replace (E0 + 1 <=? emax - prec) with true
             by (symmetry; apply Z.leb_le; change (emax - prec) with 971; lia).
           right. exists m2, (E0 + 1). split; [reflexivity|]. split; [lia|].
           replace (E0 + 1 - -1074) with (1 + (E0 - -1074)) by lia.
           rewrite Z.pow_add_r by lia. change (2 ^ 1) with 2. nia.
        -- rewrite shr_fexp_noshift by lia. cbn [shr_m].
           replace (E0 <=? emax - prec) with true
             by (symmetry; apply Z.leb_le; change (emax - prec) with 971; lia).
           right. exists m1, E0. split; [reflexivity|]. split; [lia|]. nia.
Qed.

(** Every value with at most 53 significant bits, at an exponent of the
    format, has a canonical form. *)
Lemma canonical_exists (D : positive) (e : Z) :
  Zpos (digits2_pos D) <= 53 -> -1074 <= e <= 971 ->
  exists M E, bounded64 M E = true
              /\ Zpos D * 2 ^ (e - -1074) = Zpos M * 2 ^ (E - -1074).
Proof.
  intros Hd He.
  set (E := fexp64 (Zpos (digits2_pos D) + e)).
  assert (E = Z.max (Zpos (digits2_pos D) + e - 53) (-1074)) as HE
      by reflexivity.
  destruct (shl_align_down D e E ltac:(lia)) as [_ Hfst].
  exists (fst (shl_align D e E)), E. split.
  - apply bounded64_iff.
    rewrite (digits2_mul_pow2 D _ (e - E) ltac:(lia) Hfst).
    replace (Zpos (digits2_pos D) + (e - E) + E)
      with (Zpos (digits2_pos D) + e) by lia.
    fold E. lia.
  - rewrite Hfst, <- Z.mul_assoc, <- Z.pow_add_r by lia.
    now replace (e - E + (E - -1074)) with (e - -1074) by lia.
Qed.

(** A value has one canonical form. *)
Lemma canonical_unique (M M' : positive) (E E' : Z) :
  bounded64 M E = true -> bounded64 M' E' = true ->
  Zpos M * 2 ^ (E - -1074) = Zpos M' * 2 ^ (E' - -1074) ->
  M = M' /\ E = E'.
Proof.
  intros [Hc _]%bounded64_iff [Hc' _]%bounded64_iff Hval.
  assert (-1074 <= E) by (rewrite fexp64_eq in Hc; lia).
  assert (-1074 <= E') by (rewrite fexp64_eq in Hc'; lia).
  pose proof (digits2_units_eq M M' E E' ltac:(lia) ltac:(lia) Hval) as Hd.
  assert (E = E') as <- by (rewrite <- Hc, Hd; exact Hc').
  split; [|reflexivity].
  apply units_cancel in Hval; [|lia].
  rewrite Z.sub_diag, Z.mul_1_r in Hval. now injection Hval.
Qed.

(** The order of two positive canonical numbers is the order of their
    values. *)
Lemma SFcompare_units (M M' : positive) (E E' : Z) :
  bounded64 M E = true -> bounded64 M' E' = true ->
  SFcompare (S754_finite false M E) (S754_finite false M' E')
  = Some (Zpos M * 2 ^ (E - -1074) ?= Zpos M' * 2 ^ (E' - -1074)).
Proof.
  intros [Hc _]%bounded64_iff [Hc' _]%bounded64_iff.
  rewrite fexp64_eq in Hc, Hc'.
  pose proof (digits2_bounds M) as [Mlo Mhi].
  pose proof (digits2_bounds M') as [Mlo' Mhi'].
  cbn [SFcompare]. f_equal.
  change (Pos.compare_cont Eq M M') with (Zpos M ?= Zpos M').
  symmetry. destruct (Z.compare_spec E E') as [->|Hlt|Hgt].
  - assert (0 < 2 ^ (E' - -1074)) by (apply Z.pow_pos_nonneg; lia).
    destruct (Z.compare_spec (Zpos M) (Zpos M')) as [Heq|Hl|Hg].
    + apply Z.compare_eq_iff. now rewrite Heq.
    + apply Z.compare_lt_iff. nia.
    + apply Z.compare_gt_iff. nia.
  - apply Z.compare_lt_iff.
    (* the larger exponent carries a full mantissa *)
    assert (Zpos (digits2_pos M') = 53) as HdM' by lia.
    assert (Zpos (digits2_pos M) <= 53) as HdM by lia.
    rewrite HdM' in Mlo'. change (2 ^ (53 - 1)) with (2 ^ 52) in Mlo'.
    assert (Zpos M < 2 ^ 53).
    { eapply Z.lt_le_trans; [exact Mhi|]. apply Z.pow_le_mono_r; lia. }
    replace (E' - -1074) with ((E' - E) + (E - -1074)) by lia.
    rewrite Z.pow_add_r by lia.
    assert (0 < 2 ^ (E - -1074)) by (apply Z.pow_pos_nonneg; lia).
    assert (2 ^ 1 <= 2 ^ (E' - E)) by (apply Z.pow_le_mono_r; lia).
    change (2 ^ 1) with 2 in *. change (2 ^ 53) with (2 * 2 ^ 52) in *.
    assert (Zpos M < Zpos M' * 2 ^ (E' - E)) by nia.
    rewrite Z.mul_assoc. apply Z.mul_lt_mono_pos_r; assumption.
  - apply Z.compare_gt_iff.
    assert (Zpos (digits2_pos M) = 53) as HdM by lia.
    assert (Zpos (digits2_pos M') <= 53) as HdM' by lia.
    rewrite HdM in Mlo. change (2 ^ (53 - 1)) with (2 ^ 52) in Mlo.
    assert (Zpos M' < 2 ^ 53).
    { eapply Z.lt_le_trans; [exact Mhi'|]. apply Z.pow_le_mono_r; lia. }
    replace (E - -1074) with ((E - E') + (E' - -1074)) by lia.
    rewrite Z.pow_add_r by lia.
    assert (0 < 2 ^ (E' - -1074)) by (apply Z.pow_pos_nonneg; lia).
    assert (2 ^ 1 <= 2 ^ (E - E')) by (apply Z.pow_le_mono_r; lia).
    change (2 ^ 1) with 2 in *. change (2 ^ 53) with (2 * 2 ^ 52) in *.
    assert (Zpos M' < Zpos M * 2 ^ (E - E')) by nia.
    rewrite Z.mul_assoc. apply Z.mul_lt_mono_pos_r; assumption.
Qed.

Lemma bounded64_digits (m : positive) (e : Z) :
  bounded64 m e = true ->
  Zpos (digits2_pos m) <= 53 /\ -1074 <= e <= 971.
Proof. intros [Hc He]%bounded64_iff. rewrite fexp64_eq in Hc. lia. Qed.

(** [fmod] of two finite numbers: the remainder of the values, exactly, in
    canonical form and with the sign of the dividend. *)
Lemma SFfmod_finite (sx sy : bool) (mx my : positive) (ex ey : Z) :
  bounded64 mx ex = true -> bounded64 my ey = true ->
  let R := Z.rem (Zpos mx * 2 ^ (ex - -1074)) (Zpos my * 2 ^ (ey - -1074)) in
  (R = 0 /\ SFfmod (S754_finite sx mx ex) (S754_finite sy my ey) = S754_zero sx)
  \/ (exists M E, bounded64 M E = true
                  /\ Zpos M * 2 ^ (E - -1074) = R
                  /\ SFfmod (S754_finite sx mx ex) (S754_finite sy my ey)
                     = S754_finite sx M E).
Proof.
  intros [Hdx Hex]%bounded64_digits [Hdy Hey]%bounded64_digits R.
  unfold SFfmod. set (ez := Z.min ex ey).
  destruct (shl_align_down mx ex ez ltac:(lia)) as [_ HX].
  destruct (shl_align_down my ey ez ltac:(lia)) as [_ HY].
  set (X := Zpos (fst (shl_align mx ex ez))) in *.
  set (Y := Zpos (fst (shl_align my ey ez))) in *.
  assert (0 < X) as HXpos by (unfold X; lia).
  assert (0 < Y) as HYpos by (unfold Y; lia).
  assert (0 < 2 ^ (ez - -1074)) as Hw by (apply Z.pow_pos_nonneg; lia).
  assert (R = Z.rem X Y * 2 ^ (ez - -1074)) as HR.
  { unfold R. rewrite <- Z.mul_rem_distr_r by lia. rewrite HX, HY.
    rewrite <- !Z.mul_assoc, <- !Z.pow_add_r by lia.
    now replace (ex - ez + (ez - -1074)) with (ex - -1074) by lia;
      replace (ey - ez + (ez - -1074)) with (ey - -1074) by lia. }
  pose proof (Z.rem_bound_pos X Y ltac:(lia) HYpos) as [Hr0 HrY].
  pose proof (Z.rem_le X Y ltac:(lia) HYpos) as HrX.
  cbv zeta. destruct (Z.rem X Y) as [|rp|rp] eqn:Er; [| |lia].
  - left. split; [lia|]. now destruct sx.
  - right.
    assert (Zpos (digits2_pos rp) <= 53) as Hdr.
    { destruct (Z.le_ge_cases ex ey) as [Hle|Hle].
      - assert (Zpos rp <= Zpos mx) as Hrm.
        { replace ez with ex in HX by lia.
          rewrite Z.sub_diag, Z.mul_1_r in HX. lia. }
        apply digits2_le in Hrm. lia.
      - assert (Zpos rp <= Zpos my) as Hrm.
        { replace ez with ey in HY by lia.
          rewrite Z.sub_diag, Z.mul_1_r in HY. lia. }
        apply digits2_le in Hrm. lia. }
    destruct (canonical_exists rp ez Hdr ltac:(lia)) as (M & E & HB & Hval).
    exists M, E. split; [exact HB|]. split; [lia|].
    replace (binary_normalize prec emax (cond_Zopp sx (Zpos rp)) ez sx)
      with (binary_round prec emax sx rp ez) by now destruct sx.
    apply binary_round_exact; [exact HB|lia|exact Hval].
Qed.

End Rounding.

(** ** The angle canonicalisation [wrap] *)

Section Wrap.

Lemma Prim2SF_two_pi :
  Prim2SF two_pi = S754_finite false two_pi_mantissa (-50).
Proof. reflexivity. Qed.

Lemma bounded_two_pi : bounded64 two_pi_mantissa (-50) = true.
Proof. reflexivity. Qed.

Lemma units_two_pi : units two_pi = Zpos two_pi_mantissa * 2 ^ (-50 - -1074).
Proof. reflexivity. Qed.

Lemma units_two_pi_pos : 0 < units two_pi.
Proof.
  rewrite units_two_pi. apply Z.mul_pos_pos; [lia|].
  now apply Z.pow_pos_nonneg.
Qed.

(** [np.mod] with the divisor [2 * np.pi], which is positive and not zero. *)
Lemma wrap_unfold (x : float) :
  wrap x
  = let m := fmod x two_pi in
    if negb (m =? 0)%float
    then if isless0 m then (m + two_pi)%float else m
    else 0%float.
Proof. reflexivity. Qed.

(** The sum of a negative number above [- 2 pi] and [2 pi] is the rounding
    of their exact, positive difference. *)
Lemma SFadd_neg_two_pi (M : positive) (E : Z) :
  bounded64 M E = true ->
  Zpos M * 2 ^ (E - -1074) < units two_pi ->
  exists D ez,
    -1074 <= ez
    /\ Zpos D * 2 ^ (ez - -1074) = units two_pi - Zpos M * 2 ^ (E - -1074)
    /\ SF64add (S754_finite true M E) (Prim2SF two_pi)
       = binary_round prec emax false D ez.
Proof.
  intros [_ HE]%bounded64_digits Hlt. rewrite units_two_pi in *.
  rewrite Prim2SF_two_pi. unfold SF64add, SFadd.
  set (ez := Z.min E (-50)).
  destruct (shl_align_down M E ez ltac:(lia)) as [_ HA].
  destruct (shl_align_down two_pi_mantissa (-50) ez ltac:(lia)) as [_ HB].
  set (A := Zpos (fst (shl_align M E ez))) in *.
  set (B := Zpos (fst (shl_align two_pi_mantissa (-50) ez))) in *.
  cbn [cond_Zopp].
  assert (0 < 2 ^ (ez - -1074)) as Hw by (apply Z.pow_pos_nonneg; lia).
  assert (Zpos M * 2 ^ (E - -1074) = A * 2 ^ (ez - -1074)) as HvA.
  { rewrite HA, <- Z.mul_assoc, <- Z.pow_add_r by lia.
    now replace (E - ez + (ez - -1074)) with (E - -1074) by lia. }
  assert (Zpos two_pi_mantissa * 2 ^ (-50 - -1074) = B * 2 ^ (ez - -1074))
    as HvB.
  { rewrite HB, <- Z.mul_assoc, <- Z.pow_add_r by lia.
    now replace (-50 - ez + (ez - -1074)) with (-50 - -1074) by lia. }
  rewrite HvA, HvB in *.
  assert (A < B) as HAB by nia.
  destruct (- A + B) as [|D|D] eqn:ED; try lia.
  exists D, ez. split; [lia|]. split; [|reflexivity].
  rewrite <- ED. ring.
Qed.

Lemma Prim2SF_zero : Prim2SF 0%float = S754_zero false.
Proof. reflexivity. Qed.

Lemma SF2Prim_valid_finite (s : bool) (M : positive) (E : Z) :
  bounded64 M E = true ->
  Prim2SF (SF2Prim (S754_finite s M E)) = S754_finite s M E.
Proof. intros HB. now apply Prim2SF_SF2Prim. Qed.

(** What [wrap] computes, by the sign of the exact remainder of [x] by the
    float [2 * np.pi]. *)
Lemma wrap_cases (x : float) :
  finite64 x = true ->
  let R := Z.rem (units x) (units two_pi) in
  (R = 0 /\ wrap x = 0%float)
  \/ (0 < R /\ exists M E,
        bounded64 M E = true /\ Zpos M * 2 ^ (E - -1074) = R
        /\ Prim2SF (wrap x) = S754_finite false M E)
  \/ (R < 0 /\ exists M E,
        bounded64 M E = true /\ Zpos M * 2 ^ (E - -1074) = - R
        /\ wrap x = (SF2Prim (S754_finite true M E) + two_pi)%float).
Proof.
  unfold finite64. change (units x) with (SFunits (Prim2SF x)).
  rewrite wrap_unfold. unfold fmod.
  pose proof (Prim2SF_valid x) as Hvalid.
  pose proof units_two_pi_pos as HU.
  destruct (Prim2SF x) as [s|s| |s m e] eqn:Ex; try discriminate; intros _.
  - left. cbn [SFunits]. rewrite Z.rem_0_l by lia. split; [reflexivity|].
    rewrite Prim2SF_two_pi. now destruct s.
  - cbn [valid_binary] in Hvalid. rewrite Prim2SF_two_pi.
    destruct (SFfmod_finite s false m two_pi_mantissa e (-50) Hvalid
                bounded_two_pi) as [[HR Hfm]|(M & E & HB & HR & Hfm)];
      rewrite Hfm; rewrite <- units_two_pi in HR; cbn [SFunits].
    + left. split; [|now destruct s].
      change (SpecFloat.emin prec emax) with (-1074).
      destruct s; cbn [cond_Zopp]; [rewrite Z.rem_opp_l by lia|]; lia.
    + pose proof (SF2Prim_valid_finite s M E HB) as Hfl.
      pose proof (bounded64_digits M E HB) as [_ HE].
      assert (0 < Zpos M * 2 ^ (E - -1074)) as Hpos
          by (apply Z.mul_pos_pos; [lia|apply Z.pow_pos_nonneg; lia]).
      cbv zeta. unfold isless0.
      rewrite eqb_spec, ltb_spec, Hfl, Prim2SF_zero.
      change (SpecFloat.emin prec emax) with (-1074).
      destruct s; cbn [SFeqb SFltb SFcompare negb cond_Zopp].
      * right. right. rewrite Z.rem_opp_l by lia. split; [lia|].
        exists M, E. split; [exact HB|]. split; [lia|reflexivity].
      * right. left. split; [lia|].
        exists M, E. split; [exact HB|]. split; [exact HR|exact Hfl].
Qed.

Lemma SFleb_units (M M' : positive) (E E' : Z) :
  bounded64 M E = true -> bounded64 M' E' = true ->
  Zpos M * 2 ^ (E - -1074) <= Zpos M' * 2 ^ (E' - -1074) ->
  SFleb (S754_finite false M E) (S754_finite false M' E') = true.
Proof.
  intros HB HB' Hle. unfold SFleb. rewrite SFcompare_units by assumption.
  destruct (Z.compare_spec (Zpos M * 2 ^ (E - -1074))
              (Zpos M' * 2 ^ (E' - -1074))); (reflexivity || lia).
Qed.

Lemma SFltb_units (M M' : positive) (E E' : Z) :
  bounded64 M E = true -> bounded64 M' E' = true ->
  Zpos M * 2 ^ (E - -1074) < Zpos M' * 2 ^ (E' - -1074) ->
  SFltb (S754_finite false M E) (S754_finite false M' E') = true.
Proof.
  intros HB HB' Hlt. unfold SFltb. rewrite SFcompare_units by assumption.
  destruct (Z.compare_spec (Zpos M * 2 ^ (E - -1074))
              (Zpos M' * 2 ^ (E' - -1074))); (reflexivity || lia).
Qed.

(** The sum [m + 2 pi] for a negative remainder [m] above [- 2 pi]. *)
Lemma wrap_negative_sum (M : positive) (E : Z) :
  bounded64 M E = true ->
  Zpos M * 2 ^ (E - -1074) < units two_pi ->
  let w := (SF2Prim (S754_finite true M E) + two_pi)%float in
  Prim2SF w = S754_zero false
  \/ exists m' e',
      Prim2SF w = S754_finite false m' e'
      /\ bounded64 m' e' = true
      /\ Zpos m' * 2 ^ (e' - -1074) <= units two_pi.
Proof.
  intros HB Hlt w.
  pose proof (Prim2SF_valid w) as Hvalid. unfold w in *.
  rewrite add_spec, SF2Prim_valid_finite in * by exact HB.
  destruct (SFadd_neg_two_pi M E HB Hlt) as (D & ez & Hez & HD & Hadd).
  rewrite Hadd in *.
  pose proof (bounded64_digits M E HB) as [_ HE].
  assert (0 < Zpos M * 2 ^ (E - -1074)) as Hpos
      by (apply Z.mul_pos_pos; [lia|apply Z.pow_pos_nonneg; lia]).
  destruct (binary_round_le D two_pi_mantissa ez (-50) bounded_two_pi
              ltac:(lia) Hez) as [Hz|(m' & e' & Hr & He' & Hle)].
  { rewrite <- units_two_pi. lia. }
  - now left.
  - right. exists m', e'. rewrite Hr in *. cbn [valid_binary] in Hvalid.
    rewrite units_two_pi. auto.
Qed.

(** Finite arguments go into the closed range from 0 to [2 pi]. *)
Lemma wrap_range (x : float) :
  finite64 x = true ->
  finite64 (wrap x) = true
  /\ (0 <=? wrap x)%float = true
  /\ (wrap x <=? two_pi)%float = true.
Proof.
  intros Hx. pose proof units_two_pi_pos as HU.
  pose proof (Z.rem_bound_abs (units x) (units two_pi) ltac:(lia)) as Habs.
  destruct (wrap_cases x Hx)
    as [[_ ->]|[(HR & M & E & HB & Hval & Hw)|(HR & M & E & HB & Hval & ->)]].
  - repeat split.
  - unfold finite64. rewrite !leb_spec, Hw, Prim2SF_zero, Prim2SF_two_pi.
    split; [reflexivity|]. split; [reflexivity|].
    apply SFleb_units; [exact HB|exact bounded_two_pi|].
    rewrite <- units_two_pi. lia.
  - unfold finite64. rewrite !leb_spec, Prim2SF_zero.
    destruct (wrap_negative_sum M E HB ltac:(lia))
      as [->|(m' & e' & -> & HB' & Hle)].
    + repeat split.
    + split; [reflexivity|]. split; [reflexivity|].
      rewrite Prim2SF_two_pi.
      apply SFleb_units; [exact HB'|exact bounded_two_pi|].
      now rewrite <- units_two_pi.
Qed.

Lemma units_nonneg (x : float) :
  finite64 x = true -> (0 <=? x)%float = true -> 0 <= units x.
Proof.
  unfold finite64, units. rewrite leb_spec, Prim2SF_zero.
  destruct (Prim2SF x) as [s|s| |[|] m e];
    cbn [SFleb SFcompare SFunits cond_Zopp]; intros Hf Hle;
    try discriminate; lia.
Qed.

(** Non-negative finite arguments go below [2 pi]. *)
Lemma wrap_range_nonneg (x : float) :
  finite64 x = true -> (0 <=? x)%float = true ->
  (wrap x <? two_pi)%float = true.
Proof.
  intros Hx Hpos. pose proof units_two_pi_pos as HU.
  pose proof (units_nonneg x Hx Hpos) as Hux.
  pose proof (Z.rem_bound_pos (units x) (units two_pi) Hux HU) as HRb.
  destruct (wrap_cases x Hx)
    as [[_ ->]|[(HR & M & E & HB & Hval & Hw)|(HR & _)]].
  - reflexivity.
  - rewrite ltb_spec, Hw, Prim2SF_two_pi.
    apply SFltb_units; [exact HB|exact bounded_two_pi|].
    rewrite <- units_two_pi. lia.
  - lia.
Qed.

(** When [2 pi - |m|] is itself a float, the sum [m + 2 pi] is that float. *)
Lemma wrap_negative_exact (M M' : positive) (E E' : Z) :
  bounded64 M E = true -> bounded64 M' E' = true ->
  Zpos M' * 2 ^ (E' - -1074) = units two_pi - Zpos M * 2 ^ (E - -1074) ->
  Prim2SF (SF2Prim (S754_finite true M E) + two_pi)%float
  = S754_finite false M' E'.
Proof.
  intros HB HB' Hval.
  pose proof (bounded64_digits M' E' HB') as [_ HE'].
  assert (0 < Zpos M' * 2 ^ (E' - -1074)) as Hpos
      by (apply Z.mul_pos_pos; [lia|apply Z.pow_pos_nonneg; lia]).
  rewrite add_spec, SF2Prim_valid_finite by exact HB.
  destruct (SFadd_neg_two_pi M E HB ltac:(lia)) as (D & ez & Hez & HD & ->).
  apply binary_round_exact; [exact HB'|exact Hez|]. lia.
Qed.

(** Arguments that differ by a whole number of [2 pi], exactly, have the
    same image. *)
Lemma wrap_periodic (x y : float) :
  finite64 x = true -> finite64 y = true ->
  (units two_pi | units y - units x) ->
  wrap x = wrap y.
Proof.
  intros Hx Hy [k Hk]. pose proof units_two_pi_pos as HU.
  pose proof (Z.quot_rem' (units x) (units two_pi)) as Hqx.
  pose proof (Z.quot_rem' (units y) (units two_pi)) as Hqy.
  pose proof (Z.rem_bound_abs (units x) (units two_pi) ltac:(lia)) as Hbx.
  pose proof (Z.rem_bound_abs (units y) (units two_pi) ltac:(lia)) as Hby.
  pose proof (wrap_cases x Hx) as Cx. pose proof (wrap_cases y Hy) as Cy.
  cbv zeta in Cx, Cy.
  remember (units two_pi) as U eqn:EU.
  set (Rx := Z.rem (units x) U) in *. set (Ry := Z.rem (units y) U) in *.
  set (j := k - units y ÷ U + units x ÷ U).
  assert (Ry - Rx = U * j) as Hj by (unfold j; lia).
  assert (j = -1 \/ j = 0 \/ j = 1) as Hj3 by nia.
  clearbody Rx Ry j. clear Hqx Hqy Hk k.
  destruct Cx as [[HRx ->]|[(HRx & Mx & Ex & HBx & Hvx & Hwx)
                           |(HRx & Mx & Ex & HBx & Hvx & ->)]];
    destruct Cy as [[HRy ->]|[(HRy & My & Ey & HBy & Hvy & Hwy)
                             |(HRy & My & Ey & HBy & Hvy & ->)]];
    try (exfalso; nia).
  - reflexivity.
  - (* both remainders positive: the same remainder *)
    apply Prim2SF_inj. rewrite Hwx, Hwy.
    destruct (canonical_unique Mx My Ex Ey HBx HBy ltac:(nia)) as [-> ->].
    reflexivity.
  - (* x above zero, y below: y's sum lands on x's remainder *)
    apply Prim2SF_inj. rewrite Hwx. symmetry.
    apply wrap_negative_exact; [exact HBy|exact HBx|]. rewrite <- EU. nia.
  - apply Prim2SF_inj. rewrite Hwy.
    apply wrap_negative_exact; [exact HBx|exact HBy|]. rewrite <- EU. nia.
  - destruct (canonical_unique Mx My Ex Ey HBx HBy ltac:(nia)) as [-> ->].
    reflexivity.
Qed.

(** C6, on float64.  For finite [x], [wrap x] is finite and lies between 0
    and [2 pi], both ends included; for [x >= 0] it lies below [2 pi].
    Two finite arguments whose exact difference is a whole number of the
    float [2 pi] have the same image.  The result is never negative, and
    both 0 and [2 pi] go to 0. *)
Theorem wrap_float64_laws (x y : float) :
  finite64 x = true -> finite64 y = true ->
  (finite64 (wrap x) = true
   /\ (0 <=? wrap x)%float = true
   /\ (wrap x <=? two_pi)%float = true)
  /\ ((0 <=? x)%float = true -> (wrap x <? two_pi)%float = true)
  /\ ((units two_pi | units y - units x) -> wrap x = wrap y)
  /\ wrap 0 = 0%float
  /\ wrap two_pi = 0%float.
Proof.
  intros Hx Hy. split; [now apply wrap_range|].
  split; [now apply wrap_range_nonneg|].
  split; [now apply wrap_periodic|].
  split; reflexivity.
Qed.

End Wrap.

(** ** Running a computation *)

Section Bind.

Context {World A B : Type}.

Lemma bind_ok (c : Py World A) (k : A -> Py World B) w a w' :
  c w = (Ok a, w') -> bind c k w = k a w'.
Proof. intros H. unfold bind. now rewrite H. Qed.

Lemma bind_raise (c : Py World A) (k : A -> Py World B) w e w' :
  c w = (Raise e, w') -> bind c k w = (Raise e, w').
Proof. intros H. unfold bind. now rewrite H. Qed.

End Bind.

Lemma getitem_0 {World : Type} (x : float) (l : ndarray) :
  @getitem World (x :: l) 0 = ret x.
Proof. reflexivity. Qed.

Lemma getitem_1 {World : Type} (x y : float) (l : ndarray) :
  @getitem World (x :: y :: l) 1 = ret y.
Proof. reflexivity. Qed.

Lemma getitem_2 {World : Type} (x y z : float) (l : ndarray) :
  @getitem World (x :: y :: z :: l) 2 = ret z.
Proof. reflexivity. Qed.

Lemma bind_ret {World A B : Type} (a : A) (k : A -> Py World B) w :
  bind (ret a) k w = k a w.
Proof. reflexivity. Qed.

Create Rewrite HintDb py.
#[local] Hint Rewrite @getitem_0 @getitem_1 @getitem_2 @bind_ret : py.

(** The geometry flag selects a branch. *)
Ltac pick_branch H :=
  rewrite H; cbn [Z.eqb Pos.eqb]; autorewrite with py.

(** ** The coordinate converter *)

Section Converter.

Context {World : Type}.
Variables np_cos np_sin : float -> float.
Variable self : SPECBfield World.

(** C1. In slab geometry (flag 1) the conversion of [(s0, th0, ze0)], when
    the oracle's coordinate evaluation returns the radius [R0], is exactly
    [(R0, wrap th0 * rpol, wrap ze0 * rtor)]; the oracle was asked once. *)
Theorem convert_coords_slab s0 th0 ze0 R0 rest w w' :
  Igeometry (base self) = 1 ->
  coordinate_oracle self [s0; th0; ze0] w = (Ok (R0 :: rest), w') ->
  convert_coords np_cos np_sin self [s0; th0; ze0] w
  = (Ok (PyArray [ R0;
                   (Float64.wrap th0 * rpol (base self))%float;
                   (Float64.wrap ze0 * rtor (base self))%float ]), w').
Proof.
  intros Hgeo Hxyz. unfold convert_coords.
  rewrite (bind_ok _ _ _ _ _ Hxyz). pick_branch Hgeo. reflexivity.
Qed.

(** C2. In cylindrical geometry (flag 2) the conversion of [(s0, th0, ze0)],
    when the oracle returns the radius [R0], is exactly
    [(R0 * cos th0, ze0 * rtor, R0 * sin th0)]: [ze0] enters unwrapped. *)
Theorem convert_coords_cylindrical s0 th0 ze0 R0 rest w w' :
  Igeometry (base self) = 2 ->
  coordinate_oracle self [s0; th0; ze0] w = (Ok (R0 :: rest), w') ->
  convert_coords np_cos np_sin self [s0; th0; ze0] w
  = (Ok (PyArray [ (R0 * np_cos th0)%float;
                   (ze0 * rtor (base self))%float;
                   (R0 * np_sin th0)%float ]), w').
Proof.
  intros Hgeo Hxyz. unfold convert_coords.
  rewrite (bind_ok _ _ _ _ _ Hxyz). pick_branch Hgeo. reflexivity.
Qed.

(** C3. In toroidal geometry (flag 3) the conversion hands back what the
    oracle's coordinate evaluation returned, unmodified, for every input. *)
Theorem convert_coords_toroidal stz xyz w w' :
  Igeometry (base self) = 3 ->
  coordinate_oracle self stz w = (Ok xyz, w') ->
  convert_coords np_cos np_sin self stz w = (Ok (PyArray xyz), w').
Proof.
  intros Hgeo Hxyz. unfold convert_coords.
  rewrite (bind_ok _ _ _ _ _ Hxyz). pick_branch Hgeo. reflexivity.
Qed.

(** With a geometry flag other than 1, 2 or 3 on the object, a conversion
    the oracle answered runs off the end of the method: the caller gets
    [None], and nothing is raised. *)
Lemma convert_coords_unresolved stz xyz w w' :
  Igeometry (base self) <> 1 ->
  Igeometry (base self) <> 2 ->
  Igeometry (base self) <> 3 ->
  coordinate_oracle self stz w = (Ok xyz, w') ->
  convert_coords np_cos np_sin self stz w = (Ok PyNone, w').
Proof.
  intros H1 H2 H3 Hxyz. unfold convert_coords.
  rewrite (bind_ok _ _ _ _ _ Hxyz).
  apply Z.eqb_neq in H1, H2, H3. now rewrite H1, H2, H3.
Qed.

(** A failure of the coordinate evaluation leaves [convert_coords] before
    the geometry flag is looked at. *)
Lemma convert_coords_oracle_failure stz e w w' :
  coordinate_oracle self stz w = (Raise e, w') ->
  convert_coords np_cos np_sin self stz w = (Raise e, w').
Proof. intros Hxyz. unfold convert_coords. now apply bind_raise. Qed.

End Converter.

(** ** The geometry classifier *)

Section Classifier.

Context {World SpecData : Type}.
Variable super_init : SpecData -> Z -> Py World (SPECProblem World).

(** C4. When the base class has set the geometry flag to 1, 2 or 3, the
    constructor returns an object of problem size 2 carrying the plot type
    and axis labels of that flag: 1 gives ("yx", theta, "R"), 2 gives
    ("RZ", "X(m)", "Y(m)"), 3 gives ("RZ", "R(m)", "Z(m)"); theta is the
    mathtext string [$\theta$]. *)
Theorem init_plot_metadata spec_data lvol self w w' :
  super_init spec_data lvol w = (Ok self, w') ->
  (Igeometry self = 1 ->
   SPECBfield_init super_init spec_data lvol w
   = (Ok {| base := self; problem_size := 2;
            poincare_plot_type := "yx";
            poincare_plot_xlabel := "$\theta$";
            poincare_plot_ylabel := "R" |}, w'))
  /\ (Igeometry self = 2 ->
      SPECBfield_init super_init spec_data lvol w
      = (Ok {| base := self; problem_size := 2;
               poincare_plot_type := "RZ";
               poincare_plot_xlabel := "X(m)";
               poincare_plot_ylabel := "Y(m)" |}, w'))
  /\ (Igeometry self = 3 ->
      SPECBfield_init super_init spec_data lvol w
      = (Ok {| base := self; problem_size := 2;
               poincare_plot_type := "RZ";
               poincare_plot_xlabel := "R(m)";
               poincare_plot_ylabel := "Z(m)" |}, w')).
Proof.
  intros Hsuper. unfold SPECBfield_init.
  rewrite (bind_ok _ _ _ _ _ Hsuper).
  repeat split; intros Hgeo; now rewrite Hgeo.
Qed.

(** C5. When the base class has set a geometry flag other than 1, 2 and 3,
    the constructor raises [ValueError("Unknown Igeometry!")]: no object
    comes back, whatever the flag. *)
Theorem init_unknown_geometry spec_data lvol self w w' :
  super_init spec_data lvol w = (Ok self, w') ->
  Igeometry self <> 1 -> Igeometry self <> 2 -> Igeometry self <> 3 ->
  SPECBfield_init super_init spec_data lvol w
  = (Raise (ValueError "Unknown Igeometry!"), w').
Proof.
  intros Hsuper H1 H2 H3. unfold SPECBfield_init.
  rewrite (bind_ok _ _ _ _ _ Hsuper).
  apply Z.eqb_neq in H1, H2, H3. now rewrite H1, H2, H3.
Qed.


End Classifier.

(** ** The field-line ODE model *)

Section Model.

Context {World : Type}.
Variable self : SPECBfield World.

(** C7. [f] and [f_tangent] are the oracle's [get_bfield] and
    [get_bfield_tangent] at the same [zeta] and state, whatever the length
    or range of the state: same result, same final oracle state.  With an
    oracle that answers a fixed tuple, they answer that tuple at every
    [zeta]. *)
Theorem rhs_pass_through zeta st arg1 w :
  f self zeta st arg1 w = get_bfield (field_oracle self) zeta st w
  /\ f_tangent self zeta st arg1 w
     = get_bfield_tangent (field_oracle self) zeta st w
  /\ (forall t2 t6, field_oracle self = Stub.const_specbfield t2 t6 ->
      f self zeta st arg1 w = (Ok t2, w)
      /\ f_tangent self zeta st arg1 w = (Ok t6, w)).
Proof.
  split; [reflexivity|]. split; [reflexivity|].
  intros t2 t6 Horacle. unfold f, f_tangent.
  fold (field_oracle self). rewrite Horacle. split; reflexivity.
Qed.

(** C9. An exception raised by the oracle inside [get_bfield],
    [get_bfield_tangent] or [get_xyz] is the outcome of [f], [f_tangent]
    or [convert_coords]: the same exception, the oracle state as the
    failed call left it, in every geometry. *)
Theorem oracle_failure_propagates np_cos np_sin zeta st stz arg1 e w w' :
  (get_bfield (field_oracle self) zeta st w = (Raise e, w') ->
   f self zeta st arg1 w = (Raise e, w'))
  /\ (get_bfield_tangent (field_oracle self) zeta st w = (Raise e, w') ->
      f_tangent self zeta st arg1 w = (Raise e, w'))
  /\ (coordinate_oracle self stz w = (Raise e, w') ->
      convert_coords np_cos np_sin self stz w = (Raise e, w')).
Proof.
  repeat split; intros H.
  - exact H.
  - exact H.
  - now apply convert_coords_oracle_failure.
Qed.

(** C10. The parameter [arg1] of [f] and [f_tangent] is not read: two
    calls that differ only in it are the same computation. *)
Theorem arg1_ignored zeta st (a b : pyobj) :
  f self zeta st a = f self zeta st b
  /\ f_tangent self zeta st a = f_tangent self zeta st b.
Proof. split; reflexivity. Qed.

End Model.

(** ** The model on concrete inputs *)

Section Runs.

Import Stub.
Local Open Scope float_scope.
#[local] Set Warnings "-inexact-float".

(** Slab geometry with radii 2 and 3 and an oracle answering radius 5:
    [(0.125, 2 pi + 0.5, -0.5)] goes to [(5, 0.5 * 2, wrap (-0.5) * 3)]. *)
Lemma convert_coords_slab_run :
  convert_coords cos_at_0 sin_at_0 (problem (echo_module [5; 0; 0]) 1)
    [0.125; Float64.two_pi + 0.5; -0.5] 0%nat
  = (Ok (PyArray [5; 1; 17.349555921538759]), 1%nat).
Proof.
  exact (convert_coords_slab cos_at_0 sin_at_0
           (problem (echo_module [5; 0; 0]) 1)
           0.125 (Float64.two_pi + 0.5) (-0.5) 5 [0; 0] 0%nat 1%nat
           eq_refl eq_refl).
Defined.

(** Cylindrical geometry at angle 0, where cos is 1 and sin is 0: the
    toroidal coordinate [-7] is scaled by [rtor = 3], not wrapped. *)
Lemma convert_coords_cylindrical_run :
  convert_coords cos_at_0 sin_at_0 (problem (echo_module [5; 0; 0]) 2)
    [0.125; 0; -7] 0%nat
  = (Ok (PyArray [5; -21; 0]), 1%nat).
Proof.
  exact (convert_coords_cylindrical cos_at_0 sin_at_0
           (problem (echo_module [5; 0; 0]) 2)
           0.125 0 (-7) 5 [0; 0] 0%nat 1%nat eq_refl eq_refl).
Defined.

(** Toroidal geometry: the oracle's triple comes back as it is. *)
Lemma convert_coords_toroidal_run :
  convert_coords cos_at_0 sin_at_0 (problem (echo_module [1.5; 8; -0.25]) 3)
    [0.125; 7; -7] 0%nat
  = (Ok (PyArray [1.5; 8; -0.25]), 1%nat).
Proof.
  exact (convert_coords_toroidal cos_at_0 sin_at_0
           (problem (echo_module [1.5; 8; -0.25]) 3)
           [0.125; 7; -7] [1.5; 8; -0.25] 0%nat 1%nat eq_refl eq_refl).
Defined.

(** C8. An object whose geometry flag was set to 4 after construction:
    the conversion asks the oracle, then returns [None]; nothing is
    raised. *)
Theorem convert_coords_flag_4_returns_None :
  convert_coords cos_at_0 sin_at_0 (problem (echo_module [5; 0; 0]) 4)
    [0.125; 0.5; -0.5] 0%nat
  = (Ok PyNone, 1%nat).
Proof.
  apply convert_coords_unresolved with (xyz := [5; 0; 0]);
    [discriminate | discriminate | discriminate | reflexivity].
Qed.

(** Construction for the flags 1, 2 and 3 over the stub base class. *)
Lemma init_plot_metadata_run :
  (exists o, SPECBfield_init (super_init failing_module) 1%Z 1%Z 0%nat
             = (Ok o, 0%nat)
             /\ (poincare_plot_type o, poincare_plot_xlabel o,
                 poincare_plot_ylabel o) = ("yx", "$\theta$", "R")%string)
  /\ (exists o, SPECBfield_init (super_init failing_module) 2%Z 1%Z 0%nat
                = (Ok o, 0%nat)
                /\ (poincare_plot_type o, poincare_plot_xlabel o,
                    poincare_plot_ylabel o) = ("RZ", "X(m)", "Y(m)")%string)
  /\ (exists o, SPECBfield_init (super_init failing_module) 3%Z 1%Z 0%nat
                = (Ok o, 0%nat)
                /\ (poincare_plot_type o, poincare_plot_xlabel o,
                    poincare_plot_ylabel o) = ("RZ", "R(m)", "Z(m)")%string).
Proof.
  pose proof (init_plot_metadata (super_init failing_module) 1%Z 1%Z _
                0%nat _ eq_refl) as (H1 & _ & _).
  pose proof (init_plot_metadata (super_init failing_module) 2%Z 1%Z _
                0%nat _ eq_refl) as (_ & H2 & _).
  pose proof (init_plot_metadata (super_init failing_module) 3%Z 1%Z _
                0%nat _ eq_refl) as (_ & _ & H3).
  repeat split; eexists; (split; [ first [ apply H1 | apply H2 | apply H3 ];
                                   reflexivity | reflexivity ]).
Defined.

(** The stub objects of the three geometries are what the constructor
    builds. *)
Lemma init_builds_problem (fm : FortranModule nat) (lvol : Z) (n : nat) :
  SPECBfield_init (super_init fm) 1%Z lvol n = (Ok (problem fm 1), n)
  /\ SPECBfield_init (super_init fm) 2%Z lvol n = (Ok (problem fm 2), n)
  /\ SPECBfield_init (super_init fm) 3%Z lvol n = (Ok (problem fm 3), n).
Proof. repeat split. Qed.

(** Construction for the flags 0 and 4 raises. *)
Lemma init_unknown_geometry_run :
  SPECBfield_init (super_init failing_module) 0%Z 1%Z 0%nat
  = (Raise (ValueError "Unknown Igeometry!"), 0%nat)
  /\ SPECBfield_init (super_init failing_module) 4%Z 1%Z 0%nat
     = (Raise (ValueError "Unknown Igeometry!"), 0%nat).
Proof.
  split.
  - apply (init_unknown_geometry (super_init failing_module) 0%Z 1%Z _
             0%nat _ eq_refl); discriminate.
  - apply (init_unknown_geometry (super_init failing_module) 4%Z 1%Z _
             0%nat _ eq_refl); discriminate.
Defined.

(** Toroidal geometry over the echoing oracle: the right-hand side at
    [zeta = 1] and state [(0.25, 1.5)] is [(0.25, 1.5)]; over the oracle
    answering fixed tuples it is the fixed tuple. *)
Lemma rhs_pass_through_run :
  f (problem (echo_module [5; 0; 0]) 3) 1 [0.25; 1.5] PyNone 0%nat
  = (Ok [0.25; 1.5], 1%nat)
  /\ f (const_problem [7; 8] [1; 2; 3; 4; 5; 6]) 123.5 [0.25; 1.5] PyNone
       0%nat
     = (Ok [7; 8], 0%nat).
Proof.
  split.
  - exact (proj1 (rhs_pass_through (problem (echo_module [5; 0; 0]) 3)
                    1 [0.25; 1.5] PyNone 0%nat)).
  - exact (proj1 (proj2 (proj2 (rhs_pass_through
                                  (const_problem [7; 8] [1; 2; 3; 4; 5; 6])
                                  123.5 [0.25; 1.5] PyNone 0%nat)) [7; 8] [1; 2; 3; 4; 5; 6] eq_refl)).
Defined.

(** Over the failing oracle all three methods raise what it raised, in
    slab geometry and with an unresolved flag alike. *)
Lemma oracle_failure_propagates_run :
  f (problem failing_module 1) 1 [0.25; 1.5] PyNone 0%nat
  = (Raise outside_volume, 1%nat)
  /\ f_tangent (problem failing_module 1) 1 [0.25; 1.5; 1; 0; 0; 1] PyNone 0%nat
     = (Raise outside_volume, 1%nat)
  /\ convert_coords cos_at_0 sin_at_0 (problem failing_module 1)
       [0.125; 0.5; -0.5] 0%nat
     = (Raise outside_volume, 1%nat)
  /\ convert_coords cos_at_0 sin_at_0 (problem failing_module 4)
       [0.125; 0.5; -0.5] 0%nat
     = (Raise outside_volume, 1%nat).
Proof.
  pose proof (oracle_failure_propagates (problem failing_module 1)
                cos_at_0 sin_at_0 1 [0.25; 1.5] [0.125; 0.5; -0.5] PyNone
                outside_volume 0%nat 1%nat) as (Hf & _ & Hc).
  pose proof (oracle_failure_propagates (problem failing_module 1)
                cos_at_0 sin_at_0 1 [0.25; 1.5; 1; 0; 0; 1] [0.125; 0.5; -0.5]
                PyNone outside_volume 0%nat 1%nat) as (_ & Ht & _).
  pose proof (oracle_failure_propagates (problem failing_module 4)
                cos_at_0 sin_at_0 1 [0.25; 1.5] [0.125; 0.5; -0.5] PyNone
                outside_volume 0%nat 1%nat) as (_ & _ & Hc4).
  exact (conj (Hf eq_refl) (conj (Ht eq_refl)
           (conj (Hc eq_refl) (Hc4 eq_refl)))).
Defined.

(** [wrap] at [-0.5] and at [2 pi - 0.5], which differ by the float [2 pi]
    exactly: one image, inside the closed range. *)
Lemma wrap_float64_laws_run :
  (0 <=? Float64.wrap (-0.5)) = true
  /\ (Float64.wrap (-0.5) <=? Float64.two_pi) = true
  /\ (Float64.wrap (Float64.two_pi - 0.5) <? Float64.two_pi) = true
  /\ Float64.wrap (-0.5) = Float64.wrap (Float64.two_pi - 0.5).
Proof.
  destruct (wrap_float64_laws (-0.5) (Float64.two_pi - 0.5) eq_refl eq_refl)
    as ((_ & Hlo & Hhi) & _ & Hper & _).
  destruct (wrap_float64_laws (Float64.two_pi - 0.5) (-0.5) eq_refl eq_refl)
    as (_ & Hlt & _).
  split; [exact Hlo|]. split; [exact Hhi|]. split; [exact (Hlt eq_refl)|].
  apply Hper. exists 1%Z. vm_compute. reflexivity.
Defined.

(** The range [[0, 2 pi)] and the periodicity under float addition both
    fail: [wrap (-2^-60)] is the float [2 pi] itself, because the sum
    [-2^-60 + 2 pi] rounds to [2 pi]; and [2^-60 + 2 pi * 1] rounds to
    [2 pi], whose image is 0, while the image of [2^-60] is [2^-60]. *)
Lemma wrap_not_below_two_pi :
  Float64.finite64 (-0x1p-60) = true
  /\ Float64.wrap (-0x1p-60) = Float64.two_pi
  /\ (Float64.wrap (-0x1p-60) <? Float64.two_pi) = false
  /\ Float64.wrap (0x1p-60 + Float64.two_pi * 1) = 0
  /\ Float64.wrap 0x1p-60 = 0x1p-60
  /\ (Float64.wrap (0x1p-60 + Float64.two_pi * 1) =? Float64.wrap 0x1p-60)
     = false.
Proof. repeat split; vm_compute; reflexivity. Qed.

End Runs.

(** * Further properties *)

(** ** More on binary64 rounding *)

Section RoundingSign.

(** A mantissa that is not negative stays so through [shr_fexp]; a positive
    one at an exponent of the format stays positive, since a shift is only
    taken to cut a mantissa of more than 53 digits down to 53. *)
Lemma shr_fexp_nonneg (m e : Z) :
  0 <= m -> 0 <= shr_m (fst (shr_fexp prec emax m e loc_Exact)).
Proof.
  intros Hm. destruct (fexp64 (Zdigits2 m + e) - e) as [|p|p] eqn:Ep.
  - now rewrite shr_fexp_noshift by lia.
  - destruct (shr_fexp_shift m e p Hm Ep) as (r & t & -> & _).
    cbn [fst shr_m]. apply Z.div_pos; [exact Hm|].
    apply Z.pow_pos_nonneg; lia.
  - now rewrite shr_fexp_noshift by lia.
Qed.

Lemma shr_fexp_pos (m e : Z) :
  0 < m -> -1074 <= e ->
  0 < shr_m (fst (shr_fexp prec emax m e loc_Exact))
  /\ -1074 <= snd (shr_fexp prec emax m e loc_Exact).
Proof.
  intros Hm He. destruct (fexp64 (Zdigits2 m + e) - e) as [|p|p] eqn:Ep.
  - now rewrite shr_fexp_noshift by lia.
  - destruct (shr_fexp_shift m e p ltac:(lia) Ep) as (r & t & -> & _).
    cbn [fst snd shr_m]. split; [|lia].
    destruct m as [|mp|mp]; try lia. cbn [Zdigits2] in Ep.
    rewrite fexp64_eq in Ep.
    pose proof (digits2_bounds mp) as [Mlo _].
    replace (Zpos (digits2_pos mp) - 1) with (Zpos p + 52) in Mlo by lia.
    rewrite Z.pow_add_r in Mlo by lia.
    assert (0 < 2 ^ Zpos p) by (apply Z.pow_pos_nonneg; lia).
    assert (2 ^ 52 <= Zpos mp / 2 ^ Zpos p)
      by (apply Z.div_le_lower_bound; lia).
    change (2 ^ 52) with 4503599627370496 in *. lia.
  - now rewrite shr_fexp_noshift by lia.
Qed.

(** Rounding an exact non-negative mantissa gives a zero, a finite number
    or an infinity of the given sign, and never a NaN. *)
Lemma binary_round_aux_sign (s : bool) (m e : Z) :
  0 <= m ->
  binary_round_aux prec emax s m e loc_Exact = S754_zero s
  \/ (exists m' e', binary_round_aux prec emax s m e loc_Exact
                    = S754_finite s m' e')
  \/ binary_round_aux prec emax s m e loc_Exact = S754_infinity s.
Proof.
  intros Hm. unfold binary_round_aux.
  pose proof (shr_fexp_nonneg m e Hm) as H1.
  destruct (shr_fexp prec emax m e loc_Exact) as [[q r t] e1].
  cbn [fst shr_m] in *.
  destruct (round_nearest_even_bounds q r t) as [Hb _].
  set (m1 := round_nearest_even q _) in *.
  pose proof (shr_fexp_nonneg m1 e1 ltac:(lia)) as H2.
  destruct (shr_fexp prec emax m1 e1 loc_Exact) as [[q2 r2 t2] e2].
  cbn [fst shr_m] in *.
  destruct q2 as [|q2|q2]; [now left| |lia].
  right. destruct (e2 <=? emax - prec); [left|right]; eauto.
Qed.

Lemma binary_round_aux_pos (s : bool) (m : positive) (e : Z) :
  -1074 <= e ->
  (exists m' e', binary_round_aux prec emax s (Zpos m) e loc_Exact
                 = S754_finite s m' e')
  \/ binary_round_aux prec emax s (Zpos m) e loc_Exact = S754_infinity s.
Proof.
  intros He. unfold binary_round_aux.
  pose proof (shr_fexp_pos (Zpos m) e ltac:(lia) He) as [H1 H1e].
  destruct (shr_fexp prec emax (Zpos m) e loc_Exact) as [[q r t] e1].
  cbn [fst snd shr_m] in *.
  destruct (round_nearest_even_bounds q r t) as [Hb _].
  set (m1 := round_nearest_even q _) in *.
  pose proof (shr_fexp_pos m1 e1 ltac:(lia) H1e) as [H2 _].
  destruct (shr_fexp prec emax m1 e1 loc_Exact) as [[q2 r2 t2] e2].
  cbn [fst shr_m] in *.
  destruct q2 as [|q2|q2]; try lia.
  destruct (e2 <=? emax - prec); [left|right]; eauto.
Qed.

(** A positive value at an exponent of the format does not round to zero. *)
Lemma binary_round_pos (s : bool) (D : positive) (e : Z) :
  -1074 <= e ->
  (exists m' e', binary_round prec emax s D e = S754_finite s m' e')
  \/ binary_round prec emax s D e = S754_infinity s.
Proof.
  intros He. unfold binary_round.
  set (E0 := fexp64 (Zpos (digits2_pos D) + e)).
  assert (-1074 <= E0) by (unfold E0; rewrite fexp64_eq; lia).
  destruct (Z.le_ge_cases E0 e) as [Hle|Hge].
  - destruct (shl_align_down D e E0 Hle) as [Hsnd _].
    destruct (shl_align D e E0) as [mz ez]. cbn [snd] in Hsnd. subst ez.
    now apply binary_round_aux_pos.
  - rewrite shl_align_up by exact Hge. now apply binary_round_aux_pos.
Qed.

(** The product of two finite floats that are not negative is not
    negative, and is not a NaN. *)
Lemma mul_nonneg (a b : float) :
  finite64 a = true -> finite64 b = true ->
  (0 <=? a)%float = true -> (0 <=? b)%float = true ->
  (0 <=? a * b)%float = true.
Proof.
  unfold finite64. rewrite !leb_spec, mul_spec, Prim2SF_zero.
  unfold SF64mul.
  destruct (Prim2SF a) as [sa|sa| |[|] ma ea];
    destruct (Prim2SF b) as [sb|sb| |[|] mb eb];
    cbn [SFleb SFcompare SFmul xorb]; try discriminate; try reflexivity.
  intros _ _ _ _.
  destruct (binary_round_aux_sign false (Zpos (ma * mb)) (ea + eb) ltac:(lia))
    as [->|[(m' & e' & ->)| ->]]; reflexivity.
Qed.

End RoundingSign.

(** ** More on [wrap] *)

Section WrapMore.

(** X7. [wrap x] is finite exactly when [x] is: an infinite or NaN angle
    gives NaN, and nothing is raised. *)
Theorem wrap_finite_iff (x : float) :
  finite64 (wrap x) = finite64 x
  /\ (finite64 x = false -> wrap x = nan).
Proof.
  destruct (finite64 x) eqn:F.
  - split; [now apply wrap_range|discriminate].
  - assert (wrap x = nan) as ->; [|split; reflexivity].
    revert F. unfold finite64. rewrite wrap_unfold. unfold fmod.
    rewrite Prim2SF_two_pi.
    destruct (Prim2SF x) as [s|s| |s m e]; try discriminate; reflexivity.
Qed.

(** The value of a finite positive float below [2 pi]. *)
Lemma below_two_pi_units (x : float) :
  (0 <? x)%float = true -> (x <? two_pi)%float = true ->
  exists m e, Prim2SF x = S754_finite false m e
              /\ bounded64 m e = true
              /\ 0 < Zpos m * 2 ^ (e - -1074) < units two_pi.
Proof.
  rewrite !ltb_spec, Prim2SF_zero, Prim2SF_two_pi.
  pose proof (Prim2SF_valid x) as Hvalid.
  destruct (Prim2SF x) as [s|[|]| |[|] m e];
    cbn [SFltb SFcompare]; try discriminate.
  intros _. cbn [valid_binary] in Hvalid.
  change (SFltb (S754_finite false m e) (S754_finite false two_pi_mantissa (-50))
          = true -> exists m0 e0,
            S754_finite false m e = S754_finite false m0 e0
            /\ bounded64 m0 e0 = true
            /\ 0 < Zpos m0 * 2 ^ (e0 - -1074) < units two_pi).
  unfold SFltb. rewrite SFcompare_units by (exact Hvalid || exact bounded_two_pi).
  rewrite <- units_two_pi.
  pose proof (bounded64_digits m e Hvalid) as [_ He].
  assert (0 < Zpos m * 2 ^ (e - -1074))
    by (apply Z.mul_pos_pos; [lia|apply Z.pow_pos_nonneg; lia]).
  destruct (Z.compare_spec (Zpos m * 2 ^ (e - -1074)) (units two_pi));
    try discriminate.
  intros _. exists m, e. auto.
Qed.

(** The remainder of a value between 0 and [2 pi] is the value itself. *)
Lemma wrap_small (x : float) :
  (0 <? x)%float = true -> (x <? two_pi)%float = true -> wrap x = x.
Proof.
  intros Hpos Hlt.
  destruct (below_two_pi_units x Hpos Hlt) as (m & e & Ex & HB & Hlo & Hhi).
  assert (finite64 x = true) as Hx by (unfold finite64; now rewrite Ex).
  assert (units x = Zpos m * 2 ^ (e - -1074)) as Hu
      by (unfold units; now rewrite Ex).
  pose proof (wrap_cases x Hx) as C. cbv zeta in C.
  rewrite Hu, Z.rem_small in C by lia.
  destruct C as [[HR _]|[(_ & M & E & HBM & Hval & Hw)|(HR & _)]]; try lia.
  apply Prim2SF_inj. rewrite Hw, Ex.
  now destruct (canonical_unique M m E e HBM HB Hval) as [-> ->].
Qed.

(** X8. An angle already in the open range from 0 to [2 pi] is left as it
    is, bit for bit. *)
Theorem wrap_fixed_point (x : float) :
  (0 <? x)%float = true -> (x <? two_pi)%float = true -> wrap x = x.
Proof. exact (wrap_small x). Qed.

(** X9. On finite angles that are not negative, [wrap] is idempotent. *)
Theorem wrap_idempotent_nonneg (x : float) :
  finite64 x = true -> (0 <=? x)%float = true -> wrap (wrap x) = wrap x.
Proof.
  intros Hx Hpos.
  pose proof (wrap_range_nonneg x Hx Hpos) as Hlt.
  pose proof (units_nonneg x Hx Hpos) as Hux.
  pose proof units_two_pi_pos as HU.
  pose proof (Z.rem_nonneg (units x) (units two_pi) ltac:(lia) Hux) as HR0.
  destruct (wrap_cases x Hx)
    as [[_ ->]|[(HR & M & E & HB & Hval & Hw)|(HR & _)]]; try lia.
  - reflexivity.
  - apply wrap_small; [|exact Hlt].
    now rewrite ltb_spec, Hw, Prim2SF_zero.
Qed.

(** X10. For a finite angle, [wrap] gives 0 exactly when the angle is a
    whole number of the float [2 pi]; every other finite angle, negative
    ones included, goes strictly above 0. *)
Theorem wrap_zero_iff (x : float) :
  finite64 x = true ->
  (wrap x = 0%float <-> (units two_pi | units x))
  /\ (wrap x <> 0%float -> (0 <? wrap x)%float = true).
Proof.
  intros Hx. pose proof units_two_pi_pos as HU.
  pose proof (Z.rem_divide (units x) (units two_pi) ltac:(lia)) as Hdiv.
  pose proof (Z.rem_bound_abs (units x) (units two_pi) ltac:(lia)) as Habs.
  destruct (wrap_cases x Hx)
    as [[HR Hw]|[(HR & M & E & HB & Hval & Hw)|(HR & M & E & HB & Hval & Hw)]].
  - rewrite Hw. split; [|congruence]. split; [intros _|reflexivity].
    now apply Hdiv.
  - assert (wrap x <> 0%float) as Hne.
    { intros H0. rewrite H0, Prim2SF_zero in Hw. discriminate. }
    split.
    + split; [contradiction|]. intros Hd%Hdiv. lia.
    + intros _. now rewrite ltb_spec, Hw, Prim2SF_zero.
  - assert (exists m' e', Prim2SF (wrap x) = S754_finite false m' e')
      as (m' & e' & Hfin).
    { destruct (wrap_negative_sum M E HB ltac:(lia))
        as [Hz|(m' & e' & Hr & _)]; rewrite <- Hw in *; [|eauto].
      exfalso. revert Hz. rewrite Hw, add_spec, SF2Prim_valid_finite by exact HB.
      destruct (SFadd_neg_two_pi M E HB ltac:(lia)) as (D & ez & Hez & _ & ->).
      destruct (binary_round_pos false D ez Hez) as [(m1 & e1 & ->)| ->];
        discriminate. }
    assert (wrap x <> 0%float) as Hne.
    { intros H0. rewrite H0, Prim2SF_zero in Hfin. discriminate. }
    split.
    + split; [contradiction|]. intros Hd%Hdiv. lia.
    + intros _. now rewrite ltb_spec, Hfin, Prim2SF_zero.
Qed.

End WrapMore.

(** ** More on the constructor *)

Section Construction.

Context {World SpecData : Type}.
Variable super_init : SpecData -> Z -> Py World (SPECProblem World).

(** X1. An object comes out of the constructor only when the base class
    returned and left a geometry flag of 1, 2 or 3: the object then holds
    the base attributes unchanged, problem size 2, and the plot type and
    labels of its flag; the state is the one the base class left. *)
Theorem init_success_inversion spec_data lvol obj w w' :
  SPECBfield_init super_init spec_data lvol w = (Ok obj, w') ->
  super_init spec_data lvol w = (Ok (base obj), w')
  /\ problem_size obj = 2
  /\ (Igeometry (base obj) = 1
      /\ (poincare_plot_type obj, poincare_plot_xlabel obj,
          poincare_plot_ylabel obj) = ("yx", "$\theta$", "R")%string
      \/ Igeometry (base obj) = 2
         /\ (poincare_plot_type obj, poincare_plot_xlabel obj,
             poincare_plot_ylabel obj) = ("RZ", "X(m)", "Y(m)")%string
      \/ Igeometry (base obj) = 3
         /\ (poincare_plot_type obj, poincare_plot_xlabel obj,
             poincare_plot_ylabel obj) = ("RZ", "R(m)", "Z(m)")%string).
Proof.
  unfold SPECBfield_init, bind.
  destruct (super_init spec_data lvol w) as [[self|e] w1]; [|discriminate].
  destruct (Z.eqb_spec (Igeometry self) 1) as [E1|_].
  { intros [= <- <-]. cbn. auto. }
  destruct (Z.eqb_spec (Igeometry self) 2) as [E2|_].
  { intros [= <- <-]. cbn. auto 6. }
  destruct (Z.eqb_spec (Igeometry self) 3) as [E3|_].
  { intros [= <- <-]. cbn. auto 6. }
  discriminate.
Qed.

(** X2. The constructor fails in two ways only: the base class raised, and
    that exception comes out with the state it left; or the base class
    returned with a flag other than 1, 2 and 3, and the exception is
    [ValueError("Unknown Igeometry!")]. *)
Theorem init_failure_inversion spec_data lvol e w w' :
  SPECBfield_init super_init spec_data lvol w = (Raise e, w') ->
  super_init spec_data lvol w = (Raise e, w')
  \/ exists self,
      super_init spec_data lvol w = (Ok self, w')
      /\ Igeometry self <> 1 /\ Igeometry self <> 2 /\ Igeometry self <> 3
      /\ e = ValueError "Unknown Igeometry!".
Proof.
  unfold SPECBfield_init, bind.
  destruct (super_init spec_data lvol w) as [[self|e0] w1].
  - destruct (Z.eqb_spec (Igeometry self) 1) as [E1|N1]; [discriminate|].
    destruct (Z.eqb_spec (Igeometry self) 2) as [E2|N2]; [discriminate|].
    destruct (Z.eqb_spec (Igeometry self) 3) as [E3|N3]; [discriminate|].
    intros [= <- <-]. right. exists self. auto.
  - intros [= <- <-]. now left.
Qed.


End Construction.

(** ** More on the coordinate converter *)

Section Conversion.

Context {World : Type}.
Variables np_cos np_sin : float -> float.
Variable self : SPECBfield World.

(** X4. Whatever the geometry flag, the input and the outcome, the oracle
    state after [convert_coords] is the state after its one [get_xyz]
    call: the oracle is not asked again and nothing else touches it. *)
Theorem convert_coords_oracle_state stz w :
  snd (convert_coords np_cos np_sin self stz w)
  = snd (coordinate_oracle self stz w).
Proof.
  unfold convert_coords, coordinate_oracle, bind.
  destruct (get_xyz _ stz w) as [[xyz|e] w1]; [|reflexivity].
  cbn [snd].
  destruct (Igeometry (base self) =? 1).
  { unfold getitem.
    destruct (nth_error xyz 0); [|reflexivity].
    destruct (nth_error stz 1); [|reflexivity].
    now destruct (nth_error stz 2). }
  destruct (Igeometry (base self) =? 2).
  { unfold getitem.
    destruct (nth_error xyz 0); [|reflexivity].
    destruct (nth_error stz 1); [|reflexivity].
    now destruct (nth_error stz 2). }
  now destruct (Igeometry (base self) =? 3).
Qed.

(** X5. In slab and cylindrical geometry, once the oracle has answered
    [xyz]: an empty [xyz] or an [stz] of fewer than three entries raises
    [IndexError]; otherwise the result is an array of exactly three
    entries, whatever else [xyz] and [stz] hold. *)
Theorem convert_coords_index_behaviour stz xyz w w' :
  Igeometry (base self) = 1 \/ Igeometry (base self) = 2 ->
  coordinate_oracle self stz w = (Ok xyz, w') ->
  (xyz = [] \/ (List.length stz < 3)%nat ->
   convert_coords np_cos np_sin self stz w = (Raise IndexError, w'))
  /\ (xyz <> [] -> (3 <= List.length stz)%nat ->
      exists a b c,
        convert_coords np_cos np_sin self stz w = (Ok (PyArray [a; b; c]), w')).
Proof.
  intros Hgeo Hxyz. unfold convert_coords.
  rewrite (bind_ok _ _ _ _ _ Hxyz). split.
  - intros Hshort.
    assert (xyz = [] \/ (exists x0 l, xyz = x0 :: l) /\ (List.length stz < 3)%nat)
      as [->|[(x0 & l & ->) Hlen]].
    { destruct xyz as [|x0 l]; [now left|]. right.
      destruct Hshort as [|]; [discriminate|]. eauto. }
    + now destruct Hgeo as [-> | ->].
    + destruct stz as [|s [|th [|ze rest]]]; cbn [List.length] in Hlen; try lia;
        now destruct Hgeo as [-> | ->].
  - intros Hne Hlen.
    destruct xyz as [|x0 l]; [contradiction|].
    destruct stz as [|s [|th [|ze rest]]]; cbn [List.length] in Hlen; try lia.
    destruct Hgeo as [-> | ->]; cbn [Z.eqb Pos.eqb]; do 3 eexists; reflexivity.
Qed.

(** X6. The slab conversion is periodic in both angles: two inputs whose
    angles are finite and differ, exactly, by whole numbers of the float
    [2 pi], and for which the oracle answers the same radius, are converted
    to the same point. *)
Theorem convert_coords_slab_periodic s th ze s' th' ze' R0 rest rest' w w1 w2 :
  Igeometry (base self) = 1 ->
  coordinate_oracle self [s; th; ze] w = (Ok (R0 :: rest), w1) ->
  coordinate_oracle self [s'; th'; ze'] w = (Ok (R0 :: rest'), w2) ->
  finite64 th = true -> finite64 th' = true ->
  finite64 ze = true -> finite64 ze' = true ->
  (units two_pi | units th' - units th) ->
  (units two_pi | units ze' - units ze) ->
  fst (convert_coords np_cos np_sin self [s'; th'; ze'] w)
  = fst (convert_coords np_cos np_sin self [s; th; ze] w).
Proof.
  intros Hgeo Hxyz Hxyz' Fth Fth' Fze Fze' Dth Dze. unfold convert_coords.
  rewrite (bind_ok _ _ _ _ _ Hxyz), (bind_ok _ _ _ _ _ Hxyz').
  rewrite Hgeo. cbn [Z.eqb Pos.eqb bind getitem nth_error ret fst].
  change (np_mod th' (2 * np_pi)) with (wrap th').
  change (np_mod th (2 * np_pi)) with (wrap th).
  change (np_mod ze' (2 * np_pi)) with (wrap ze').
  change (np_mod ze (2 * np_pi)) with (wrap ze).
  now rewrite (wrap_periodic th th' Fth Fth' Dth),
    (wrap_periodic ze ze' Fze Fze' Dze).
Qed.

(** X11. In slab geometry with finite angles and finite radii [rpol] and
    [rtor] that are not negative, the second and third coordinates of the
    converted point are not negative, and are not NaN. *)
Theorem convert_coords_slab_nonneg s0 th0 ze0 R0 rest w w' :
  Igeometry (base self) = 1 ->
  coordinate_oracle self [s0; th0; ze0] w = (Ok (R0 :: rest), w') ->
  finite64 th0 = true -> finite64 ze0 = true ->
  finite64 (rpol (base self)) = true -> finite64 (rtor (base self)) = true ->
  (0 <=? rpol (base self))%float = true ->
  (0 <=? rtor (base self))%float = true ->
  exists y z,
    convert_coords np_cos np_sin self [s0; th0; ze0] w
    = (Ok (PyArray [R0; y; z]), w')
    /\ (0 <=? y)%float = true /\ (0 <=? z)%float = true.
Proof.
  intros Hgeo Hxyz Fth Fze Fpol Ftor Ppol Ptor. unfold convert_coords.
  rewrite (bind_ok _ _ _ _ _ Hxyz), Hgeo.
  cbn [Z.eqb Pos.eqb bind getitem nth_error ret].
  change (np_mod th0 (2 * np_pi)) with (wrap th0).
  change (np_mod ze0 (2 * np_pi)) with (wrap ze0).
  destruct (wrap_range th0 Fth) as (Fwt & Pwt & _).
  destruct (wrap_range ze0 Fze) as (Fwz & Pwz & _).
  do 2 eexists. split; [reflexivity|].
  split; now apply mul_nonneg.
Qed.

End Conversion.

(** ** Further runs *)

Section MoreRuns.

Import Stub.
Local Open Scope float_scope.
#[local] Set Warnings "-inexact-float".

(** The cylindrical object the constructor builds over the stub base class. *)
Lemma init_success_inversion_run :
  super_init (echo_module [5; 0; 0]) 2%Z 1%Z 0%nat
  = (Ok (base (problem (echo_module [5; 0; 0]) 2)), 0%nat)
  /\ problem_size (problem (echo_module [5; 0; 0]) 2) = 2%Z
  /\ poincare_plot_type (problem (echo_module [5; 0; 0]) 2) = "RZ"%string.
Proof.
  destruct (init_success_inversion (super_init (echo_module [5; 0; 0]))
              2%Z 1%Z (problem (echo_module [5; 0; 0]) 2) 0%nat 0%nat eq_refl)
    as (Hsuper & Hsize & _).
  split; [exact Hsuper|]. split; [exact Hsize|reflexivity].
Defined.

(** Construction with flag 0 fails in the second way. *)
Lemma init_failure_inversion_run :
  super_init failing_module 0%Z 1%Z 0%nat
  = (Raise (ValueError "Unknown Igeometry!"), 0%nat)
  \/ exists self,
      super_init failing_module 0%Z 1%Z 0%nat = (Ok self, 0%nat)
      /\ Igeometry self <> 1%Z /\ Igeometry self <> 2%Z
      /\ Igeometry self <> 3%Z
      /\ ValueError "Unknown Igeometry!" = ValueError "Unknown Igeometry!".
Proof.
  exact (init_failure_inversion (super_init failing_module) 0%Z 1%Z
           (ValueError "Unknown Igeometry!") 0%nat 0%nat eq_refl).
Defined.


(** Slab geometry: an oracle answering an empty array, an input of two
    entries, and a well-formed call. *)
Lemma convert_coords_index_behaviour_run :
  convert_coords cos_at_0 sin_at_0 (problem (echo_module []) 1)
    [0.125; 0.5; -0.5] 0%nat
  = (Raise IndexError, 1%nat)
  /\ convert_coords cos_at_0 sin_at_0 (problem (echo_module [5; 0; 0]) 2)
       [0.125; 0.5] 0%nat
     = (Raise IndexError, 1%nat)
  /\ exists a b c,
       convert_coords cos_at_0 sin_at_0 (problem (echo_module [5]) 2)
         [0.125; 0; -7; 9] 0%nat
       = (Ok (PyArray [a; b; c]), 1%nat).
Proof.
  split; [|split].
  - apply (convert_coords_index_behaviour cos_at_0 sin_at_0
             (problem (echo_module []) 1) [0.125; 0.5; -0.5] [] 0%nat 1%nat
             (or_introl eq_refl) eq_refl).
    now left.
  - apply (convert_coords_index_behaviour cos_at_0 sin_at_0
             (problem (echo_module [5; 0; 0]) 2) [0.125; 0.5] [5; 0; 0]
             0%nat 1%nat (or_intror eq_refl) eq_refl).
    right. cbn. lia.
  - apply (convert_coords_index_behaviour cos_at_0 sin_at_0
             (problem (echo_module [5]) 2) [0.125; 0; -7; 9] [5]
             0%nat 1%nat (or_intror eq_refl) eq_refl).
    + discriminate.
    + cbn. lia.
Defined.

(** Slab geometry: the angles [-0.5] and [2 pi - 0.5] give one point. *)
Lemma convert_coords_slab_periodic_run :
  fst (convert_coords cos_at_0 sin_at_0 (problem (echo_module [5; 0; 0]) 1)
         [0.125; Float64.two_pi - 0.5; 0.25] 0%nat)
  = fst (convert_coords cos_at_0 sin_at_0 (problem (echo_module [5; 0; 0]) 1)
           [7; -0.5; 0.25] 0%nat).
Proof.
  apply (convert_coords_slab_periodic cos_at_0 sin_at_0
           (problem (echo_module [5; 0; 0]) 1)
           7 (-0.5) 0.25 0.125 (Float64.two_pi - 0.5) 0.25 5 [0; 0] [0; 0]
           0%nat 1%nat 1%nat eq_refl eq_refl eq_refl eq_refl eq_refl eq_refl
           eq_refl).
  - exists 1%Z. vm_compute. reflexivity.
  - exists 0%Z. vm_compute. reflexivity.
Defined.

(** An infinite angle wraps to NaN. *)
Lemma wrap_finite_iff_run : Float64.wrap infinity = nan.
Proof. exact (proj2 (wrap_finite_iff infinity) eq_refl). Defined.

(** [0.5] is left as it is. *)
Lemma wrap_fixed_point_run : Float64.wrap 0.5 = 0.5.
Proof. exact (wrap_fixed_point 0.5 eq_refl eq_refl). Defined.

(** Wrapping [7] twice is wrapping it once. *)
Lemma wrap_idempotent_nonneg_run :
  Float64.wrap (Float64.wrap 7) = Float64.wrap 7.
Proof. exact (wrap_idempotent_nonneg 7 eq_refl eq_refl). Defined.

(** [2 pi + 2 pi] is exact and wraps to 0; [-0.5] wraps above 0. *)
Lemma wrap_zero_iff_run :
  Float64.wrap (Float64.two_pi + Float64.two_pi) = 0
  /\ (0 <? Float64.wrap (-0.5)) = true.
Proof.
  split.
  - apply (proj1 (wrap_zero_iff (Float64.two_pi + Float64.two_pi) eq_refl)).
    exists 2%Z. vm_compute. reflexivity.
  - apply (proj2 (wrap_zero_iff (-0.5) eq_refl)).
    intros H. apply (f_equal Prim2SF) in H. vm_compute in H. discriminate.
Defined.

(** Slab geometry with radii 2 and 3: the angles [-0.5] and [-7] give
    coordinates that are not negative. *)
Lemma convert_coords_slab_nonneg_run :
  exists y z,
    convert_coords cos_at_0 sin_at_0 (problem (echo_module [5; 0; 0]) 1)
      [0.125; -0.5; -7] 0%nat
    = (Ok (PyArray [5; y; z]), 1%nat)
    /\ (0 <=? y) = true /\ (0 <=? z) = true.
Proof.
  exact (convert_coords_slab_nonneg cos_at_0 sin_at_0
           (problem (echo_module [5; 0; 0]) 1) 0.125 (-0.5) (-7) 5 [0; 0]
           0%nat 1%nat eq_refl eq_refl eq_refl eq_refl eq_refl eq_refl
           eq_refl eq_refl).
Defined.

End MoreRuns.
